(** * Poco::AtomicCounter (Foundation/include/Poco/AtomicCounter.h)

    A shallow embedding of the three build-time strategies of the counter
    (Windows, Mac OS X, and the generic FastMutex-guarded one), of a store
    of counter objects, and of threads that call [operator ++] concurrently. *)

From Stdlib Require Import ZArith Lia List Permutation.
From stdpp Require Import base option list sorting gmap.

Local Open Scope Z_scope.

(** ** The underlying integer type

    [typedef int ValueType;] on every supported target: a 32-bit
    two's-complement integer.  A value is a [Z] inside [in_range]; arithmetic
    is reduced back into that range, as the interlocked primitives and the
    load/add/store sequence of the generic strategy do on the hardware. *)

Module Int32.

Definition modulus : Z := 2 ^ 32.
Definition half_modulus : Z := 2 ^ 31.
Definition min_signed : Z := - half_modulus.
Definition max_signed : Z := half_modulus - 1.

Definition in_range (z : Z) : Prop := min_signed <= z <= max_signed.

(** The bit pattern of [z], read as an unsigned 32-bit number. *)
Definition unsigned (z : Z) : Z := z mod modulus.

(** A bit pattern read back as a two's-complement number. *)
Definition signed (u : Z) : Z := if u <? half_modulus then u else u - modulus.

Definition wrap (z : Z) : Z := signed (unsigned z).

Definition add (x y : Z) : Z := wrap (x + y).
Definition sub (x y : Z) : Z := wrap (x - y).

End Int32.

Definition ValueType : Type := Z.

(** ** Results of a call

    A call either returns, or waits for ever on a FastMutex that nobody will
    release, or was made on a location that holds no counter.  The class has
    no throw statement and no error code, so there is no such result. *)

Inductive outcome (A : Type) : Type :=
| Returned (a : A)
| Blocked
| NoObject.

Arguments Returned {A} a.
Arguments Blocked {A}.
Arguments NoObject {A}.

Definition obind {A B : Type} (o : outcome A) (k : A -> outcome B) : outcome B :=
  match o with
  | Returned a => k a
  | Blocked => Blocked
  | NoObject => NoObject
  end.

(** ** #if POCO_OS == POCO_OS_WINDOWS_NT *)

Module Windows.

(** [typedef volatile LONG ImplType;] *)
Definition ImplType : Type := Z.

(** Modelled from the spec: the host's native atomic increment, here Win32
    [InterlockedIncrement(&x)], is no part of the sources.  It is one
    indivisible step that adds one to the 32-bit variable and returns the
    resulting value. *)
Definition InterlockedIncrement (x : ImplType) : ValueType * ImplType :=
  let r := Int32.add x 1 in (r, r).

(** Modelled from the spec: the host's native atomic decrement, here Win32
    [InterlockedDecrement(&x)]. *)
Definition InterlockedDecrement (x : ImplType) : ValueType * ImplType :=
  let r := Int32.sub x 1 in (r, r).

Definition operator_ValueType (_counter : ImplType) : ValueType * ImplType :=
  (_counter, _counter).

Definition value (_counter : ImplType) : ValueType * ImplType :=
  (_counter, _counter).

Definition operator_inc_prefix (_counter : ImplType) : ValueType * ImplType :=
  InterlockedIncrement _counter.

Definition operator_inc_postfix (_counter : ImplType) : ValueType * ImplType :=
  let result := _counter in
  let '(_, _counter) := InterlockedIncrement _counter in
  (result, _counter).

Definition operator_dec_prefix (_counter : ImplType) : ValueType * ImplType :=
  InterlockedDecrement _counter.

Definition operator_dec_postfix (_counter : ImplType) : ValueType * ImplType :=
  let result := _counter in
  let '(_, _counter) := InterlockedDecrement _counter in
  (result, _counter).

Definition operator_not (_counter : ImplType) : bool * ImplType :=
  (_counter =? 0, _counter).

End Windows.

(** ** #elif POCO_OS == POCO_OS_MAC_OS_X *)

Module MacOSX.

(** [typedef int32_t ImplType;] *)
Definition ImplType : Type := Z.

(** Modelled from the spec: the host's native atomic increment, here
    libkern's [OSAtomicIncrement32(&x)], is no part of the sources.  It
    atomically adds one and returns the new value. *)
Definition OSAtomicIncrement32 (x : ImplType) : ValueType * ImplType :=
  let r := Int32.add x 1 in (r, r).

(** Modelled from the spec: the host's native atomic decrement, here
    libkern's [OSAtomicDecrement32(&x)]. *)
Definition OSAtomicDecrement32 (x : ImplType) : ValueType * ImplType :=
  let r := Int32.sub x 1 in (r, r).

Definition operator_ValueType (_counter : ImplType) : ValueType * ImplType :=
  (_counter, _counter).

Definition value (_counter : ImplType) : ValueType * ImplType :=
  (_counter, _counter).

Definition operator_inc_prefix (_counter : ImplType) : ValueType * ImplType :=
  OSAtomicIncrement32 _counter.

Definition operator_inc_postfix (_counter : ImplType) : ValueType * ImplType :=
  let result := _counter in
  let '(_, _counter) := OSAtomicIncrement32 _counter in
  (result, _counter).

Definition operator_dec_prefix (_counter : ImplType) : ValueType * ImplType :=
  OSAtomicDecrement32 _counter.

Definition operator_dec_postfix (_counter : ImplType) : ValueType * ImplType :=
  let result := _counter in
  let '(_, _counter) := OSAtomicDecrement32 _counter in
  (result, _counter).

Definition operator_not (_counter : ImplType) : bool * ImplType :=
  (_counter =? 0, _counter).

End MacOSX.

(** ** #else: generic implementation based on FastMutex *)

Module Generic.

(** [struct ImplType { mutable FastMutex mutex; volatile int value; };]
    The mutex is [true] while some ScopedLock holds it. *)
Record ImplType : Type := mkImpl { _counter_mutex : bool; _counter_value : Z }.

(** Code that runs on the counter: it reads and writes [_counter] and may
    fail to return. *)
Definition M (A : Type) : Type := ImplType -> outcome (A * ImplType).

Definition ret {A : Type} (a : A) : M A := fun c => Returned (a, c).

Definition bind {A B : Type} (m : M A) (k : A -> M B) : M B :=
  fun c => obind (m c) (fun p => k (fst p) (snd p)).

Declare Scope counter_scope.
Delimit Scope counter_scope with counter.
Notation "x <- m ;; k" := (bind m (fun x => k))
  (at level 100, m at next level, right associativity) : counter_scope.
Notation "m ;; k" := (bind m (fun _ => k))
  (at level 100, right associativity) : counter_scope.
Local Open Scope counter_scope.

(** Modelled from the spec: Poco/Mutex.h is not among the sources.  The
    guarding lock offers scoped acquire and release and is non-reentrant:
    acquiring a free mutex takes it, acquiring a held one waits until it is
    released, which in a single thread of control never happens. *)
Definition FastMutex_lock : M unit :=
  fun c => if _counter_mutex c
           then Blocked
           else Returned (tt, mkImpl true (_counter_value c)).

(** Modelled from the spec: release of the guarding lock (Poco/Mutex.h). *)
Definition FastMutex_unlock : M unit :=
  fun c => Returned (tt, mkImpl false (_counter_value c)).

(** [{ FastMutex::ScopedLock lock(_counter.mutex); body }]: the constructor
    acquires, the destructor at the closing brace releases. *)
Definition ScopedLock {A : Type} (body : M A) : M A :=
  FastMutex_lock ;; r <- body ;; FastMutex_unlock ;; ret r.

(** A volatile read of [_counter.value]. *)
Definition load : M Z := fun c => Returned (_counter_value c, c).

(** A volatile write of [_counter.value]. *)
Definition store (v : Z) : M unit :=
  fun c => Returned (tt, mkImpl (_counter_mutex c) v).

Definition operator_ValueType : M ValueType :=
  ScopedLock (result <- load ;; ret result).

Definition value : M ValueType :=
  ScopedLock (result <- load ;; ret result).

(** [result = ++_counter.value;] *)
Definition operator_inc_prefix : M ValueType :=
  ScopedLock (old <- load ;; store (Int32.add old 1) ;; ret (Int32.add old 1)).

(** [result = _counter.value++;] *)
Definition operator_inc_postfix : M ValueType :=
  ScopedLock (old <- load ;; store (Int32.add old 1) ;; ret old).

(** [result = --_counter.value;] *)
Definition operator_dec_prefix : M ValueType :=
  ScopedLock (old <- load ;; store (Int32.sub old 1) ;; ret (Int32.sub old 1)).

(** [result = _counter.value--;] *)
Definition operator_dec_postfix : M ValueType :=
  ScopedLock (old <- load ;; store (Int32.sub old 1) ;; ret old).

(** [result = _counter.value == 0;] *)
Definition operator_not : M bool :=
  ScopedLock (v <- load ;; ret (v =? 0)).

End Generic.

(** ** Strategy selection

    The preprocessor picks one of the three bodies above from [POCO_OS]; the
    choice is fixed for the life of the binary. *)

Inductive POCO_OS : Type :=
| POCO_OS_WINDOWS_NT
| POCO_OS_MAC_OS_X
| POCO_OS_OTHER.

Module AtomicCounter.

Definition ImplType (os : POCO_OS) : Type :=
  match os with
  | POCO_OS_WINDOWS_NT => Windows.ImplType
  | POCO_OS_MAC_OS_X => MacOSX.ImplType
  | POCO_OS_OTHER => Generic.ImplType
  end.

(** A member function of the class under the selected strategy. *)
Definition method (os : POCO_OS) (A : Type) : Type :=
  ImplType os -> outcome (A * ImplType os).

Definition select {A : Type} (os : POCO_OS)
    (windows : Windows.ImplType -> A * Windows.ImplType)
    (macosx : MacOSX.ImplType -> A * MacOSX.ImplType)
    (generic : Generic.M A) : method os A :=
  match os as o return method o A with
  | POCO_OS_WINDOWS_NT => fun c => Returned (windows c)
  | POCO_OS_MAC_OS_X => fun c => Returned (macosx c)
  | POCO_OS_OTHER => generic
  end.

Definition operator_ValueType (os : POCO_OS) : method os ValueType :=
  select os Windows.operator_ValueType MacOSX.operator_ValueType
    Generic.operator_ValueType.

Definition value (os : POCO_OS) : method os ValueType :=
  select os Windows.value MacOSX.value Generic.value.

Definition operator_inc_prefix (os : POCO_OS) : method os ValueType :=
  select os Windows.operator_inc_prefix MacOSX.operator_inc_prefix
    Generic.operator_inc_prefix.

Definition operator_inc_postfix (os : POCO_OS) : method os ValueType :=
  select os Windows.operator_inc_postfix MacOSX.operator_inc_postfix
    Generic.operator_inc_postfix.

Definition operator_dec_prefix (os : POCO_OS) : method os ValueType :=
  select os Windows.operator_dec_prefix MacOSX.operator_dec_prefix
    Generic.operator_dec_prefix.

Definition operator_dec_postfix (os : POCO_OS) : method os ValueType :=
  select os Windows.operator_dec_postfix MacOSX.operator_dec_postfix
    Generic.operator_dec_postfix.

Definition operator_not (os : POCO_OS) : method os bool :=
  select os Windows.operator_not MacOSX.operator_not Generic.operator_not.

(** The integer held in [_counter] (no call is made: this is the observer
    the statements below are written with). *)
Definition stored (os : POCO_OS) : ImplType os -> Z :=
  match os as o return ImplType o -> Z with
  | POCO_OS_WINDOWS_NT => fun c => c
  | POCO_OS_MAC_OS_X => fun c => c
  | POCO_OS_OTHER => Generic._counter_value
  end.

(** The guarding lock is free (vacuous where no lock object exists). *)
Definition unlocked (os : POCO_OS) : ImplType os -> Prop :=
  match os as o return ImplType o -> Prop with
  | POCO_OS_WINDOWS_NT => fun _ => True
  | POCO_OS_MAC_OS_X => fun _ => True
  | POCO_OS_OTHER => fun c => Generic._counter_mutex c = false
  end.

(** A counter between two calls: it holds an [int] and nobody holds its
    lock. *)
Definition quiescent (os : POCO_OS) (c : ImplType os) : Prop :=
  Int32.in_range (stored os c) /\ unlocked os c.

(** Modelled from the spec: the constructors and assignment operators are
    defined in AtomicCounter.cpp, which is not among the sources.
    [construct(initial)]: a new counter with value [initial]. *)
Definition construct_init (os : POCO_OS) (initialValue : ValueType) : ImplType os :=
  match os as o return ImplType o with
  | POCO_OS_WINDOWS_NT => initialValue
  | POCO_OS_MAC_OS_X => initialValue
  | POCO_OS_OTHER => Generic.mkImpl false initialValue
  end.

(** Modelled from the spec: [construct()], a new counter with value 0
    (AtomicCounter.cpp is missing). *)
Definition construct (os : POCO_OS) : ImplType os := construct_init os 0.

(** Modelled from the spec: [assign(value)] atomically sets the stored
    value, has no return value and always succeeds (AtomicCounter.cpp is
    missing); under the lock-guarded strategy every operation takes the
    guarding lock around its access. *)
Definition assign (os : POCO_OS) (v : ValueType) : method os unit :=
  select os (fun _ => (tt, v)) (fun _ => (tt, v))
    (Generic.ScopedLock (Generic.store v)).

(** Modelled from the spec: [construct(other)], a new counter whose value is
    a single consistent snapshot of [other] (AtomicCounter.cpp is missing).
    Returns the new counter and [other] as the read left it. *)
Definition construct_copy (os : POCO_OS) (other : ImplType os)
    : outcome (ImplType os * ImplType os) :=
  obind (value os other) (fun p => Returned (construct_init os (fst p), snd p)).

(** Modelled from the spec: [assign(other)] sets the stored value to a
    snapshot of [other]'s current value (AtomicCounter.cpp is missing).
    Returns the assigned counter and [other] as the read left it. *)
Definition assign_copy (os : POCO_OS) (other self : ImplType os)
    : outcome (ImplType os * ImplType os) :=
  obind (value os other) (fun p =>
  obind (assign os (fst p) self) (fun q => Returned (snd q, snd p))).

End AtomicCounter.

(** ** Counter objects in memory

    Counters live at locations of a store; a call through a location updates
    the object found there, and every holder of the location sees it. *)

Module Store.

Definition invoke {A : Type} (os : POCO_OS) (l : nat)
    (m : AtomicCounter.method os A) (h : gmap nat (AtomicCounter.ImplType os))
    : outcome (A * gmap nat (AtomicCounter.ImplType os)) :=
  match h !! l with
  | None => NoObject
  | Some c => obind (m c) (fun p => Returned (fst p, <[l := snd p]> h))
  end.

(** Modelled from the spec: copy construction (AtomicCounter.cpp is
    missing) reads [other] once and places a new counter with that value at
    a location not in use. *)
Definition construct_copy (os : POCO_OS) (other : nat)
    (h : gmap nat (AtomicCounter.ImplType os))
    : outcome (nat * gmap nat (AtomicCounter.ImplType os)) :=
  obind (invoke os other (AtomicCounter.value os) h) (fun p =>
    let b := fresh (dom (snd p)) in
    Returned (b, <[b := AtomicCounter.construct_init os (fst p)]> (snd p))).

(** What a location reads as, when it holds a counter. *)
Definition read (os : POCO_OS) (l : nat)
    (h : gmap nat (AtomicCounter.ImplType os)) : option Z :=
  AtomicCounter.stored os <$> h !! l.

End Store.

(** ** Threads calling [operator ++ ()] on one shared counter

    Each thread has a number of [++counter] calls still to make and the
    values its finished calls returned.  A schedule names, step by step, the
    thread that runs next; a thread that is named while it waits for the
    mutex, or after its last call, leaves the state as it is. *)

Module Concurrent.

Record thread (PC : Type) : Type :=
  mkThread { pc : PC; pending : nat; returned : list Z }.

Arguments mkThread {PC} pc pending returned.
Arguments pc {PC} t.
Arguments pending {PC} t.
Arguments returned {PC} t.

Section Interleaving.

Context {Shared PC : Type}.
Variable tstep : Shared -> thread PC -> option (Shared * thread PC).

Definition sched_step (i : nat) (st : Shared * list (thread PC))
    : Shared * list (thread PC) :=
  match snd st !! i with
  | None => st
  | Some t =>
      match tstep (fst st) t with
      | None => st
      | Some (s', t') => (s', <[i := t']> (snd st))
      end
  end.

Fixpoint run (sched : list nat) (st : Shared * list (thread PC))
    : Shared * list (thread PC) :=
  match sched with
  | [] => st
  | i :: sched' => run sched' (sched_step i st)
  end.

End Interleaving.

(** Where a thread stands under the native strategies:
    [return InterlockedIncrement(&_counter);] is one indivisible step, then
    the value travels back to the caller. *)
Inductive native_pc : Type :=
| NIdle
| NReturning (result : ValueType).

Definition native_step (atomic_increment : Z -> ValueType * Z)
    (_counter : Z) (t : thread native_pc) : option (Z * thread native_pc) :=
  match pc t with
  | NIdle =>
      match pending t with
      | O => None
      | S n =>
          let '(r, _counter) := atomic_increment _counter in
          Some (_counter, mkThread (NReturning r) n (returned t))
      end
  | NReturning r => Some (_counter, mkThread NIdle (pending t) (r :: returned t))
  end.

(** Where a thread stands inside the generic [operator ++ ()]: before the
    ScopedLock, holding the lock before the volatile read, between the read
    and the write of [++_counter.value], before the closing brace that
    releases the lock, and at [return result;]. *)
Inductive generic_pc : Type :=
| GIdle
| GLocked
| GLoaded (old : Z)
| GStored (result : ValueType)
| GReturning (result : ValueType).

Definition generic_step (_counter : Generic.ImplType) (t : thread generic_pc)
    : option (Generic.ImplType * thread generic_pc) :=
  match pc t with
  | GIdle =>
      match pending t with
      | O => None
      | S n =>
          match Generic.FastMutex_lock _counter with
          | Returned (_, c') => Some (c', mkThread GLocked n (returned t))
          | _ => None
          end
      end
  | GLocked =>
      match Generic.load _counter with
      | Returned (old, c') => Some (c', mkThread (GLoaded old) (pending t) (returned t))
      | _ => None
      end
  | GLoaded old =>
      match Generic.store (Int32.add old 1) _counter with
      | Returned (_, c') =>
          Some (c', mkThread (GStored (Int32.add old 1)) (pending t) (returned t))
      | _ => None
      end
  | GStored r =>
      match Generic.FastMutex_unlock _counter with
      | Returned (_, c') => Some (c', mkThread (GReturning r) (pending t) (returned t))
      | _ => None
      end
  | GReturning r => Some (_counter, mkThread GIdle (pending t) (r :: returned t))
  end.

Definition native_idle (p : native_pc) : bool :=
  match p with NIdle => true | _ => false end.

Definition generic_idle (p : generic_pc) : bool :=
  match p with GIdle => true | _ => false end.

(** One thread per entry of [calls], each about to make that many calls. *)
Definition spawn {PC : Type} (idle : PC) (calls : list nat) : list (thread PC) :=
  map (fun k => mkThread idle k []) calls.

Definition finished {PC : Type} (idle : PC -> bool) (ts : list (thread PC)) : bool :=
  forallb (fun t => idle (pc t) && Nat.eqb (pending t) 0) ts.

Definition all_returned {PC : Type} (ts : list (thread PC)) : list Z :=
  concat (map returned ts).

(** What is seen of a run: whether every call has returned, the counter,
    and the values the calls returned. *)
Record observation : Type :=
  mkObs { all_done : bool; final_value : Z; results : list Z }.

Definition observe_native (st : Z * list (thread native_pc)) : observation :=
  mkObs (finished native_idle (snd st)) (fst st) (all_returned (snd st)).

Definition observe_generic (st : Generic.ImplType * list (thread generic_pc))
    : observation :=
  mkObs (finished generic_idle (snd st)) (Generic._counter_value (fst st))
    (all_returned (snd st)).

(** The threads of [calls] run under [sched] on a counter that starts at 0. *)
Definition execute (os : POCO_OS) (calls : list nat) (sched : list nat)
    : observation :=
  match os with
  | POCO_OS_WINDOWS_NT =>
      observe_native
        (run (native_step Windows.InterlockedIncrement) sched (0, spawn NIdle calls))
  | POCO_OS_MAC_OS_X =>
      observe_native
        (run (native_step MacOSX.OSAtomicIncrement32) sched (0, spawn NIdle calls))
  | POCO_OS_OTHER =>
      observe_generic
        (run generic_step sched (Generic.mkImpl false 0, spawn GIdle calls))
  end.

(** The values 1, 2, ..., n. *)
Definition one_to (n : nat) : list Z := map Z.of_nat (seq 1 n).

(** A schedule that lets thread after thread run all its calls alone
    ([per_call] steps for each call). *)
Fixpoint one_by_one (per_call : nat) (first : nat) (calls : list nat) : list nat :=
  match calls with
  | [] => []
  | k :: calls' => repeat first (per_call * k) ++ one_by_one per_call (S first) calls'
  end.

Definition steps_per_call (os : POCO_OS) : nat :=
  match os with
  | POCO_OS_OTHER => 5
  | _ => 2
  end.

End Concurrent.

(** ** Threads calling any of the member functions

    A thread runs a program: the member functions it calls on the shared
    counter, in order.  It keeps the calls that have returned, each with its
    result, most recent first. *)

Module Workload.

Inductive method : Type :=
| call_operator_ValueType
| call_value
| call_inc_prefix
| call_inc_postfix
| call_dec_prefix
| call_dec_postfix
| call_operator_not.

Inductive result : Type :=
| Int (z : ValueType)
| Bool (b : bool).

(** What a call adds to the counter. *)
Definition delta (m : method) : Z :=
  match m with
  | call_inc_prefix | call_inc_postfix => 1
  | call_dec_prefix | call_dec_postfix => -1
  | _ => 0
  end.

Definition net (program : list method) : Z :=
  fold_right (fun m acc => delta m + acc) 0 program.

(** The member function a call stands for, with its result tagged. *)
Definition invoke (os : POCO_OS) (m : method) : AtomicCounter.method os result :=
  fun c =>
    match m with
    | call_operator_ValueType =>
        obind (AtomicCounter.operator_ValueType os c) (fun p => Returned (Int (fst p), snd p))
    | call_value =>
        obind (AtomicCounter.value os c) (fun p => Returned (Int (fst p), snd p))
    | call_inc_prefix =>
        obind (AtomicCounter.operator_inc_prefix os c) (fun p => Returned (Int (fst p), snd p))
    | call_inc_postfix =>
        obind (AtomicCounter.operator_inc_postfix os c) (fun p => Returned (Int (fst p), snd p))
    | call_dec_prefix =>
        obind (AtomicCounter.operator_dec_prefix os c) (fun p => Returned (Int (fst p), snd p))
    | call_dec_postfix =>
        obind (AtomicCounter.operator_dec_postfix os c) (fun p => Returned (Int (fst p), snd p))
    | call_operator_not =>
        obind (AtomicCounter.operator_not os c) (fun p => Returned (Bool (fst p), snd p))
    end.

(** The calls of a program made one after the other by a single caller. *)
Fixpoint invoke_all (os : POCO_OS) (program : list method)
    (c : AtomicCounter.ImplType os) : outcome (list result * AtomicCounter.ImplType os) :=
  match program with
  | [] => Returned ([], c)
  | m :: rest =>
      obind (invoke os m c) (fun p =>
      obind (invoke_all os rest (snd p)) (fun q =>
      Returned (fst p :: fst q, snd q)))
  end.

Record worker (PC : Type) : Type :=
  mkWorker { at_pc : PC; todo : list method; finished_calls : list (method * result) }.

Arguments mkWorker {PC} at_pc todo finished_calls.
Arguments at_pc {PC} w.
Arguments todo {PC} w.
Arguments finished_calls {PC} w.

Section Pool.

Context {Shared T : Type}.
Variable tstep : Shared -> T -> option (Shared * T).

(** The thread named by the scheduler takes a step if it can. *)
Definition pool_step (i : nat) (st : Shared * list T) : Shared * list T :=
  match snd st !! i with
  | None => st
  | Some t =>
      match tstep (fst st) t with
      | None => st
      | Some (s', t') => (s', <[i := t']> (snd st))
      end
  end.

Fixpoint pool_run (sched : list nat) (st : Shared * list T) : Shared * list T :=
  match sched with
  | [] => st
  | i :: sched' => pool_run sched' (pool_step i st)
  end.

End Pool.

(** Where a thread stands under the native strategies.  The read accessors,
    [operator !] and the prefix operators are a single access to [_counter];
    the postfix operators are two statements,
    [ValueType result(_counter);] and then the interlocked call, and another
    thread may run between them. *)
Inductive native_pc : Type :=
| NIdle
| NSnapshot (m : method) (result : ValueType)
| NReturn (m : method) (r : result).

Definition native_step (atomic_increment atomic_decrement : Z -> ValueType * Z)
    (_counter : Z) (t : worker native_pc) : option (Z * worker native_pc) :=
  match at_pc t with
  | NIdle =>
      match todo t with
      | [] => None
      | m :: rest =>
          match m with
          | call_operator_ValueType | call_value =>
              Some (_counter, mkWorker (NReturn m (Int _counter)) rest (finished_calls t))
          | call_operator_not =>
              Some (_counter,
                    mkWorker (NReturn m (Bool (_counter =? 0))) rest (finished_calls t))
          | call_inc_prefix =>
              let '(r, c') := atomic_increment _counter in
              Some (c', mkWorker (NReturn m (Int r)) rest (finished_calls t))
          | call_dec_prefix =>
              let '(r, c') := atomic_decrement _counter in
              Some (c', mkWorker (NReturn m (Int r)) rest (finished_calls t))
          | call_inc_postfix | call_dec_postfix =>
              Some (_counter, mkWorker (NSnapshot m _counter) rest (finished_calls t))
          end
      end
  | NSnapshot m result =>
      match m with
      | call_inc_postfix =>
          let '(_, c') := atomic_increment _counter in
          Some (c', mkWorker (NReturn m (Int result)) (todo t) (finished_calls t))
      | call_dec_postfix =>
          let '(_, c') := atomic_decrement _counter in
          Some (c', mkWorker (NReturn m (Int result)) (todo t) (finished_calls t))
      | _ => None
      end
  | NReturn m r =>
      Some (_counter, mkWorker NIdle (todo t) ((m, r) :: finished_calls t))
  end.

(** Where a thread stands under the generic strategy: before the
    ScopedLock, holding the lock before the volatile read, between the read
    and the write of a [++] or [--], with [result] assigned before the
    closing brace that releases the lock, and at [return result;]. *)
Inductive generic_pc : Type :=
| GIdle
| GLocked (m : method)
| GLoaded (m : method) (old : Z)
| GBody (m : method) (r : result)
| GReturn (m : method) (r : result).

Definition generic_step (_counter : Generic.ImplType) (t : worker generic_pc)
    : option (Generic.ImplType * worker generic_pc) :=
  match at_pc t with
  | GIdle =>
      match todo t with
      | [] => None
      | m :: rest =>
          match Generic.FastMutex_lock _counter with
          | Returned (_, c') => Some (c', mkWorker (GLocked m) rest (finished_calls t))
          | _ => None
          end
      end
  | GLocked m =>
      match Generic.load _counter with
      | Returned (old, c') =>
          match m with
          | call_operator_ValueType | call_value =>
              Some (c', mkWorker (GBody m (Int old)) (todo t) (finished_calls t))
          | call_operator_not =>
              Some (c', mkWorker (GBody m (Bool (old =? 0))) (todo t) (finished_calls t))
          | _ => Some (c', mkWorker (GLoaded m old) (todo t) (finished_calls t))
          end
      | _ => None
      end
  | GLoaded m old =>
      match m with
      | call_inc_prefix =>
          match Generic.store (Int32.add old 1) _counter with
          | Returned (_, c') =>
              Some (c', mkWorker (GBody m (Int (Int32.add old 1))) (todo t)
                          (finished_calls t))
          | _ => None
          end
      | call_inc_postfix =>
          match Generic.store (Int32.add old 1) _counter with
          | Returned (_, c') =>
              Some (c', mkWorker (GBody m (Int old)) (todo t) (finished_calls t))
          | _ => None
          end
      | call_dec_prefix =>
          match Generic.store (Int32.sub old 1) _counter with
          | Returned (_, c') =>
              Some (c', mkWorker (GBody m (Int (Int32.sub old 1))) (todo t)
                          (finished_calls t))
          | _ => None
          end
      | call_dec_postfix =>
          match Generic.store (Int32.sub old 1) _counter with
          | Returned (_, c') =>
              Some (c', mkWorker (GBody m (Int old)) (todo t) (finished_calls t))
          | _ => None
          end
      | _ => None
      end
  | GBody m r =>
      match Generic.FastMutex_unlock _counter with
      | Returned (_, c') => Some (c', mkWorker (GReturn m r) (todo t) (finished_calls t))
      | _ => None
      end
  | GReturn m r =>
      Some (_counter, mkWorker GIdle (todo t) ((m, r) :: finished_calls t))
  end.

Definition native_idle (p : native_pc) : bool :=
  match p with NIdle => true | _ => false end.

Definition generic_idle (p : generic_pc) : bool :=
  match p with GIdle => true | _ => false end.

(** One thread per program, each about to make its first call. *)
Definition spawn {PC : Type} (idle : PC) (programs : list (list method))
    : list (worker PC) :=
  map (fun p => mkWorker idle p []) programs.

Definition finished {PC : Type} (idle : PC -> bool) (ts : list (worker PC)) : bool :=
  forallb (fun t => idle (at_pc t) && bool_decide (todo t = [])) ts.

(** What is seen of a run: whether every call has returned, the counter,
    whether its lock is held, and per thread the calls that returned, in the
    order they were made. *)
Record observation : Type :=
  mkObs { all_done : bool;
          final_value : Z;
          lock_held : bool;
          results : list (list (method * result)) }.

Definition observe_native (st : Z * list (worker native_pc)) : observation :=
  mkObs (finished native_idle (snd st)) (fst st) false
    (map (fun t => rev (finished_calls t)) (snd st)).

Definition observe_generic (st : Generic.ImplType * list (worker generic_pc))
    : observation :=
  mkObs (finished generic_idle (snd st)) (Generic._counter_value (fst st))
    (Generic._counter_mutex (fst st))
    (map (fun t => rev (finished_calls t)) (snd st)).

(** The threads of [programs] run under [sched] on a counter that holds
    [start] and whose lock is free. *)
Definition execute (os : POCO_OS) (start : Z) (programs : list (list method))
    (sched : list nat) : observation :=
  match os with
  | POCO_OS_WINDOWS_NT =>
      observe_native
        (pool_run (native_step Windows.InterlockedIncrement Windows.InterlockedDecrement)
           sched (start, spawn NIdle programs))
  | POCO_OS_MAC_OS_X =>
      observe_native
        (pool_run (native_step MacOSX.OSAtomicIncrement32 MacOSX.OSAtomicDecrement32)
           sched (start, spawn NIdle programs))
  | POCO_OS_OTHER =>
      observe_generic
        (pool_run generic_step sched (Generic.mkImpl false start, spawn GIdle programs))
  end.

End Workload.

(** ** Vocabulary of the proofs about programs *)

Definition sumZ {T : Type} (f : T -> Z) (l : list T) : Z :=
  fold_right (fun t acc => f t + acc) 0 l.

(** The calls of a thread, made, under way and still to make: its program. *)
Definition native_history (t : Workload.worker Workload.native_pc)
    : list Workload.method :=
  rev (map fst (Workload.finished_calls t))
  ++ match Workload.at_pc t with
     | Workload.NIdle => []
     | Workload.NSnapshot m _ | Workload.NReturn m _ => [m]
     end
  ++ Workload.todo t.

(** What the calls of a thread have yet to add to the counter. *)
Definition native_owed (t : Workload.worker Workload.native_pc) : Z :=
  Workload.net (Workload.todo t)
  + match Workload.at_pc t with
    | Workload.NSnapshot m _ => Workload.delta m
    | _ => 0
    end.

Definition native_net_inv (start : Z) (programs : list (list Workload.method))
    (c : Z) (ts : list (Workload.worker Workload.native_pc)) : Prop :=
  c = Int32.wrap (start + Workload.net (concat programs) - sumZ native_owed ts)
  /\ map native_history ts = programs.

Definition generic_history (t : Workload.worker Workload.generic_pc)
    : list Workload.method :=
  rev (map fst (Workload.finished_calls t))
  ++ match Workload.at_pc t with
     | Workload.GIdle => []
     | Workload.GLocked m | Workload.GLoaded m _
     | Workload.GBody m _ | Workload.GReturn m _ => [m]
     end
  ++ Workload.todo t.

Definition generic_owed (t : Workload.worker Workload.generic_pc) : Z :=
  Workload.net (Workload.todo t)
  + match Workload.at_pc t with
    | Workload.GLocked m | Workload.GLoaded m _ => Workload.delta m
    | _ => 0
    end.

(** 1 for a thread inside the scope of its ScopedLock. *)
Definition generic_inside (t : Workload.worker Workload.generic_pc) : nat :=
  match Workload.at_pc t with
  | Workload.GLocked _ | Workload.GLoaded _ _ | Workload.GBody _ _ => 1
  | _ => 0
  end.

(** The counter holds its start value plus what the calls have added so
    far; every thread is somewhere in its program; the mutex is held exactly
    when one thread is inside its ScopedLock; and a thread between the read
    and the write of a [++] or [--] has read what the counter still holds. *)
Definition generic_net_inv (start : Z) (programs : list (list Workload.method))
    (c : Generic.ImplType) (ts : list (Workload.worker Workload.generic_pc)) : Prop :=
  Generic._counter_value c
  = Int32.wrap (start + Workload.net (concat programs) - sumZ generic_owed ts)
  /\ map generic_history ts = programs
  /\ sum_list_with generic_inside ts = (if Generic._counter_mutex c then 1 else 0)%nat
  /\ Forall (fun t => forall m old, Workload.at_pc t = Workload.GLoaded m old ->
                                    old = Generic._counter_value c) ts.

(** What a call returns on a counter that holds [v]. *)
Definition result_at (m : Workload.method) (v : Z) : Workload.result :=
  match m with
  | Workload.call_operator_ValueType | Workload.call_value => Workload.Int v
  | Workload.call_inc_prefix => Workload.Int (Int32.add v 1)
  | Workload.call_inc_postfix => Workload.Int v
  | Workload.call_dec_prefix => Workload.Int (Int32.sub v 1)
  | Workload.call_dec_postfix => Workload.Int v
  | Workload.call_operator_not => Workload.Bool (v =? 0)
  end.

(** The results of a program made by a single caller on a counter that
    holds [v]. *)
Fixpoint results_from (program : list Workload.method) (v : Z)
    : list Workload.result :=
  match program with
  | [] => []
  | m :: rest =>
      result_at m v :: results_from rest (Int32.wrap (v + Workload.delta m))
  end.

(** A thread stands between the two statements of a postfix operator only
    (native strategies), between the read and the write of a [++] or [--]
    only (generic strategy). *)
Definition native_placed (t : Workload.worker Workload.native_pc) : Prop :=
  match Workload.at_pc t with
  | Workload.NSnapshot m _ =>
      m = Workload.call_inc_postfix \/ m = Workload.call_dec_postfix
  | _ => True
  end.

Definition generic_placed (t : Workload.worker Workload.generic_pc) : Prop :=
  match Workload.at_pc t with
  | Workload.GLoaded m _ => Workload.delta m <> 0
  | _ => True
  end.

(** The steps a thread has yet to take. *)
Definition native_steps (m : Workload.method) : nat :=
  match m with
  | Workload.call_inc_postfix | Workload.call_dec_postfix => 3
  | _ => 2
  end.

Definition native_cost (t : Workload.worker Workload.native_pc) : nat :=
  sum_list_with native_steps (Workload.todo t)
  + match Workload.at_pc t with
    | Workload.NIdle => 0
    | Workload.NSnapshot _ _ => 2
    | Workload.NReturn _ _ => 1
    end.

Definition generic_steps (m : Workload.method) : nat :=
  match m with
  | Workload.call_operator_ValueType | Workload.call_value
  | Workload.call_operator_not => 4
  | _ => 5
  end.

Definition generic_cost (t : Workload.worker Workload.generic_pc) : nat :=
  sum_list_with generic_steps (Workload.todo t)
  + match Workload.at_pc t with
    | Workload.GIdle => 0
    | Workload.GLocked m => generic_steps m - 1
    | Workload.GLoaded _ _ => 3
    | Workload.GBody _ _ => 2
    | Workload.GReturn _ _ => 1
    end.

(** The value the counter took at a call that moves it by [d] (1 for the
    increments, -1 for the decrements), read off what the call returned: the
    result of a prefix operator, the result of a postfix operator moved by
    [d]. *)
Definition issued (d : Z) (call : Workload.method * Workload.result) : option Z :=
  match call with
  | (m, Workload.Int z) =>
      if Workload.delta m =? d then
        match m with
        | Workload.call_inc_prefix | Workload.call_dec_prefix => Some z
        | Workload.call_inc_postfix | Workload.call_dec_postfix =>
            Some (Int32.wrap (z + d))
        | _ => None
        end
      else None
  | _ => None
  end.

(** The calls of a thread that have their result: those that returned, and
    the one that is past its access to the counter. *)
Definition native_resulted (t : Workload.worker Workload.native_pc)
    : list (Workload.method * Workload.result) :=
  match Workload.at_pc t with
  | Workload.NReturn m r => (m, r) :: Workload.finished_calls t
  | _ => Workload.finished_calls t
  end.

Definition generic_resulted (t : Workload.worker Workload.generic_pc)
    : list (Workload.method * Workload.result) :=
  match Workload.at_pc t with
  | Workload.GBody m r | Workload.GReturn m r => (m, r) :: Workload.finished_calls t
  | _ => Workload.finished_calls t
  end.

(** The [n] values that follow [start] in steps of [d], as the 32-bit
    counter holds them. *)
Definition numbered (d : Z) (start : Z) (n : nat) : list Z :=
  map (fun k => Int32.wrap (start + d * Z.of_nat k)) (seq 1 n).

(** The number of calls of a program that move the counter by [d]. *)
Definition moves (d : Z) (program : list Workload.method) : nat :=
  sum_list_with (fun m => if Workload.delta m =? d then 1%nat else 0%nat) program.

(** A program that moves the counter in the direction [d] only. *)
Definition one_way (d : Z) (program : list Workload.method) : Prop :=
  Forall (fun m => Workload.delta m = 0 \/ Workload.delta m = d) program.

(** A program without postfix operators. *)
Definition no_postfix (program : list Workload.method) : Prop :=
  Forall (fun m => m <> Workload.call_inc_postfix /\ m <> Workload.call_dec_postfix)
    program.

(** The calls that moved the counter so far have taken it through the
    values that follow [start], one each. *)
Definition native_numbering_inv (d : Z) (start : Z)
    (programs : list (list Workload.method))
    (ts : list (Workload.worker Workload.native_pc)) : Prop :=
  let handed := concat (map (fun t => omap (issued d) (native_resulted t)) ts) in
  Z.of_nat (length handed) * d
  = Workload.net (concat programs) - sumZ native_owed ts
  /\ handed ≡ₚ numbered d start (length handed).

Definition generic_numbering_inv (d : Z) (start : Z)
    (programs : list (list Workload.method))
    (ts : list (Workload.worker Workload.generic_pc)) : Prop :=
  let handed := concat (map (fun t => omap (issued d) (generic_resulted t)) ts) in
  Z.of_nat (length handed) * d
  = Workload.net (concat programs) - sumZ generic_owed ts
  /\ handed ≡ₚ numbered d start (length handed).

(** ** Vocabulary of the proofs

    What the invariants of the interleaving model and the statements about
    single calls are written with. *)

(** The values the first [n] increments of a counter that starts at 0
    return, as the 32-bit counter holds them. *)
Definition wrapped_one_to (n : nat) : list Z :=
  map (fun k => Int32.wrap (Z.of_nat k)) (seq 1 n).

(** The values a thread's calls have obtained from the counter so far: those
    returned, and the one its current call is about to return. *)
Definition native_produced (t : Concurrent.thread Concurrent.native_pc) : list Z :=
  match Concurrent.pc t with
  | Concurrent.NReturning r => r :: Concurrent.returned t
  | Concurrent.NIdle => Concurrent.returned t
  end.

(** The counter holds the number of increments done so far, the values
    handed out so far are 1, 2, ... up to that number, and the calls done
    and the calls still to come add up to [total]. *)
Definition native_inv (total : nat) (c : Z)
    (ts : list (Concurrent.thread Concurrent.native_pc)) : Prop :=
  let handed := concat (map native_produced ts) in
  c = Int32.wrap (Z.of_nat (length handed))
  /\ handed ≡ₚ wrapped_one_to (length handed)
  /\ (length handed + sum_list_with Concurrent.pending ts = total)%nat.

(** The same under the generic strategy: a call has its value once it has
    written the counter. *)
Definition generic_produced (t : Concurrent.thread Concurrent.generic_pc) : list Z :=
  match Concurrent.pc t with
  | Concurrent.GStored r | Concurrent.GReturning r => r :: Concurrent.returned t
  | _ => Concurrent.returned t
  end.

(** 1 for a thread whose current call has taken the lock and not yet
    written the counter. *)
Definition generic_in_flight (t : Concurrent.thread Concurrent.generic_pc) : nat :=
  match Concurrent.pc t with
  | Concurrent.GLocked | Concurrent.GLoaded _ => 1
  | _ => 0
  end.

(** 1 for a thread inside the scope of its ScopedLock. *)
Definition generic_holds (t : Concurrent.thread Concurrent.generic_pc) : nat :=
  match Concurrent.pc t with
  | Concurrent.GLocked | Concurrent.GLoaded _ | Concurrent.GStored _ => 1
  | _ => 0
  end.

(** As [native_inv], and moreover: the mutex is held exactly when one thread
    is inside its ScopedLock, and a thread between the read and the write of
    [++_counter.value] has read the value the counter still holds. *)
Definition generic_inv (total : nat) (c : Generic.ImplType)
    (ts : list (Concurrent.thread Concurrent.generic_pc)) : Prop :=
  let handed := concat (map generic_produced ts) in
  Generic._counter_value c = Int32.wrap (Z.of_nat (length handed))
  /\ handed ≡ₚ wrapped_one_to (length handed)
  /\ (length handed + sum_list_with Concurrent.pending ts
      + sum_list_with generic_in_flight ts = total)%nat
  /\ sum_list_with generic_holds ts = (if Generic._counter_mutex c then 1 else 0)%nat
  /\ Forall (fun t => forall old, Concurrent.pc t = Concurrent.GLoaded old ->
                                  old = Generic._counter_value c) ts.

(** The call returned, and left the counter ready for the next call. *)
Definition completes {A : Type} (os : POCO_OS)
    (o : outcome (A * AtomicCounter.ImplType os)) : Prop :=
  exists r c', o = Returned (r, c') /\ AtomicCounter.quiescent os c'.

(** * Properties *)

(** ** 32-bit arithmetic *)

Ltac int32_unfold :=
  unfold Int32.add, Int32.sub, Int32.wrap, Int32.signed, Int32.unsigned,
    Int32.in_range, Int32.min_signed, Int32.max_signed, Int32.half_modulus,
    Int32.modulus in *;
  change (2 ^ 32) with 4294967296 in *;
  change (2 ^ 31) with 2147483648 in *.

Ltac int32_solve :=
  int32_unfold;
  repeat match goal with
         | |- context [?a <? ?b] => destruct (Z.ltb_spec a b)
         | H : context [?a <? ?b] |- _ => destruct (Z.ltb_spec a b)
         end;
  Z.to_euclidean_division_equations; lia.

Section Int32Facts.

Import Int32.

Lemma wrap_in_range (z : Z) : in_range (wrap z).
Proof. int32_solve. Qed.

Lemma wrap_id (z : Z) : in_range z -> wrap z = z.
Proof. intros H. int32_solve. Qed.

Lemma unsigned_wrap (z : Z) : unsigned (wrap z) = unsigned z.
Proof. int32_solve. Qed.

Lemma wrap_add_l (a b : Z) : wrap (wrap a + b) = wrap (a + b).
Proof. int32_solve. Qed.

Lemma wrap_sub_l (a b : Z) : wrap (wrap a - b) = wrap (a - b).
Proof. int32_solve. Qed.

Lemma add_in_range (x y : Z) : in_range (add x y).
Proof. apply wrap_in_range. Qed.

Lemma sub_in_range (x y : Z) : in_range (sub x y).
Proof. apply wrap_in_range. Qed.

Lemma add_1_no_overflow (v : Z) :
  in_range v -> v < max_signed -> add v 1 = v + 1.
Proof. intros H1 H2. int32_solve. Qed.

Lemma sub_1_no_overflow (v : Z) :
  in_range v -> min_signed < v -> sub v 1 = v - 1.
Proof. intros H1 H2. int32_solve. Qed.

Lemma add_1_overflow : add max_signed 1 = min_signed.
Proof. reflexivity. Qed.

Lemma sub_1_underflow : sub min_signed 1 = max_signed.
Proof. reflexivity. Qed.

Lemma unsigned_add (x y : Z) : unsigned (add x y) = (x + y) mod modulus.
Proof. unfold add. rewrite unsigned_wrap. reflexivity. Qed.

Lemma unsigned_sub (x y : Z) : unsigned (sub x y) = (x - y) mod modulus.
Proof. unfold sub. rewrite unsigned_wrap. reflexivity. Qed.

Lemma add_1_neq (v : Z) : in_range v -> add v 1 <> v.
Proof. intros H. int32_solve. Qed.

Lemma sub_1_neq (v : Z) : in_range v -> sub v 1 <> v.
Proof. intros H. int32_solve. Qed.

End Int32Facts.

Arguments Int32.add : simpl never.
Arguments Int32.sub : simpl never.

(** ** One call on one counter *)

Section Methods.

Import AtomicCounter.

Variable os : POCO_OS.

Implicit Types c : ImplType os.

(** A counter is determined by the integer it holds and the state of its
    lock. *)
Lemma quiescent_ext c1 c2 :
  unlocked os c1 -> unlocked os c2 -> stored os c1 = stored os c2 -> c1 = c2.
Proof.
  destruct os; simpl; intros H1 H2 E; try exact E.
  destruct c1, c2; simpl in *; congruence.
Qed.

Ltac by_strategy c H :=
  destruct os; simpl in c, H |- *;
  [ | | destruct c as [[] ?]; simpl in H; try discriminate H ];
  eexists; (split; [ reflexivity | ]); simpl; auto.

Lemma value_returns c :
  unlocked os c -> value os c = Returned (stored os c, c).
Proof.
  intros H. destruct os; simpl in *; try reflexivity.
  destruct c as [locked v]; simpl in H; subst locked; reflexivity.
Qed.

Lemma operator_ValueType_returns c :
  unlocked os c -> operator_ValueType os c = Returned (stored os c, c).
Proof.
  intros H. destruct os; simpl in *; try reflexivity.
  destruct c as [locked v]; simpl in H; subst locked; reflexivity.
Qed.

Lemma operator_not_returns c :
  unlocked os c -> operator_not os c = Returned (stored os c =? 0, c).
Proof.
  intros H. destruct os; simpl in *; try reflexivity.
  destruct c as [locked v]; simpl in H; subst locked; reflexivity.
Qed.

Lemma operator_inc_prefix_returns c :
  unlocked os c ->
  exists c', operator_inc_prefix os c = Returned (Int32.add (stored os c) 1, c')
             /\ stored os c' = Int32.add (stored os c) 1 /\ unlocked os c'.
Proof. intros H. by_strategy c H. Qed.

Lemma operator_inc_postfix_returns c :
  unlocked os c ->
  exists c', operator_inc_postfix os c = Returned (stored os c, c')
             /\ stored os c' = Int32.add (stored os c) 1 /\ unlocked os c'.
Proof. intros H. by_strategy c H. Qed.

Lemma operator_dec_prefix_returns c :
  unlocked os c ->
  exists c', operator_dec_prefix os c = Returned (Int32.sub (stored os c) 1, c')
             /\ stored os c' = Int32.sub (stored os c) 1 /\ unlocked os c'.
Proof. intros H. by_strategy c H. Qed.

Lemma operator_dec_postfix_returns c :
  unlocked os c ->
  exists c', operator_dec_postfix os c = Returned (stored os c, c')
             /\ stored os c' = Int32.sub (stored os c) 1 /\ unlocked os c'.
Proof. intros H. by_strategy c H. Qed.

Lemma assign_returns c (v : Z) :
  unlocked os c ->
  exists c', assign os v c = Returned (tt, c')
             /\ stored os c' = v /\ unlocked os c'.
Proof. intros H. by_strategy c H. Qed.

Lemma construct_init_stored (v : Z) : stored os (construct_init os v) = v.
Proof. destruct os; reflexivity. Qed.

Lemma construct_init_unlocked (v : Z) : unlocked os (construct_init os v).
Proof. destruct os; simpl; auto. Qed.

(** A call made while the guarding lock is held does not return (there is
    a lock only under the generic strategy). *)
Lemma held_lock_blocks (v : Z) :
  Generic.value (Generic.mkImpl true v) = Blocked
  /\ Generic.operator_inc_prefix (Generic.mkImpl true v) = Blocked
  /\ Generic.operator_not (Generic.mkImpl true v) = Blocked.
Proof. repeat split. Qed.

End Methods.

(** ** Interleavings *)

Section InterleavingFacts.

Import Concurrent.

Context {Shared PC : Type}.
Variable tstep : Shared -> thread PC -> option (Shared * thread PC).

Lemma sched_step_middle (s s' : Shared) (l1 l2 : list (thread PC))
    (t t' : thread PC) :
  tstep s t = Some (s', t') ->
  sched_step tstep (length l1) (s, l1 ++ t :: l2) = (s', l1 ++ t' :: l2).
Proof.
  intros Hstep. unfold sched_step; simpl.
  rewrite list_lookup_middle by reflexivity. rewrite Hstep.
  f_equal. rewrite <- (Nat.add_0_r (length l1)). rewrite insert_app_r.
  reflexivity.
Qed.

Lemma sched_step_stuck (s : Shared) (l1 l2 : list (thread PC)) (t : thread PC) :
  tstep s t = None ->
  sched_step tstep (length l1) (s, l1 ++ t :: l2) = (s, l1 ++ t :: l2).
Proof.
  intros Hstep. unfold sched_step; simpl.
  rewrite list_lookup_middle by reflexivity. rewrite Hstep. reflexivity.
Qed.

(** A scheduling step either leaves the state alone or lets one thread,
    wherever it stands in the pool, take one step of its own. *)
Lemma sched_step_cases (i : nat) (s : Shared) (ts : list (thread PC)) :
  sched_step tstep i (s, ts) = (s, ts)
  \/ exists l1 t l2 s' t',
       ts = l1 ++ t :: l2 /\ tstep s t = Some (s', t')
       /\ sched_step tstep i (s, ts) = (s', l1 ++ t' :: l2).
Proof.
  unfold sched_step; simpl.
  destruct (ts !! i) as [t|] eqn:Hi; [ | left; reflexivity ].
  destruct (tstep s t) as [[s' t']|] eqn:Hstep; [ | left; reflexivity ].
  right. exists (take i ts), t, (drop (S i) ts), s', t'.
  split; [ symmetry; apply take_drop_middle; exact Hi | ].
  split; [ exact Hstep | ].
  f_equal. apply insert_take_drop. apply lookup_lt_is_Some_1. eauto.
Qed.

Lemma run_app (sched1 sched2 : list nat) (st : Shared * list (thread PC)) :
  run tstep (sched1 ++ sched2) st = run tstep sched2 (run tstep sched1 st).
Proof.
  revert st. induction sched1 as [|i sched1 IH]; intros st; simpl; auto.
Qed.

Section Invariant.

Variable Inv : Shared -> list (thread PC) -> Prop.

Hypothesis Inv_step :
  forall s l1 t l2 s' t',
    Inv s (l1 ++ t :: l2) -> tstep s t = Some (s', t') -> Inv s' (l1 ++ t' :: l2).

Lemma run_invariant (sched : list nat) (st : Shared * list (thread PC)) :
  Inv (fst st) (snd st) ->
  Inv (fst (run tstep sched st)) (snd (run tstep sched st)).
Proof.
  revert st. induction sched as [|i sched IH]; intros [s ts] H; simpl; auto.
  apply IH.
  destruct (sched_step_cases i s ts) as [E | (l1 & t & l2 & s' & t' & -> & Hs & E)];
    rewrite E; simpl in *; eauto.
Qed.

End Invariant.

End InterleavingFacts.

(** ** Values handed out by the counter *)

Section Produced.

Import Concurrent.

Lemma wrapped_one_to_S (n : nat) :
  wrapped_one_to (S n)
  = wrapped_one_to n ++ [Int32.wrap (Z.of_nat (S n))].
Proof.
  unfold wrapped_one_to. rewrite seq_S, map_app. reflexivity.
Qed.

Lemma wrapped_one_to_small (n : nat) :
  Z.of_nat n <= Int32.max_signed -> wrapped_one_to n = one_to n.
Proof.
  intros Hn. unfold wrapped_one_to, one_to.
  apply map_ext_in. intros k Hk. apply in_seq in Hk.
  apply wrap_id. int32_unfold. lia.
Qed.

Lemma next_value (n : nat) :
  Int32.add (Int32.wrap (Z.of_nat n)) 1 = Int32.wrap (Z.of_nat (S n)).
Proof.
  unfold Int32.add. rewrite wrap_add_l. f_equal. lia.
Qed.

Lemma one_to_sorted (n : nat) : Sorted Z.le (one_to n).
Proof.
  unfold one_to. generalize 1%nat as a.
  induction n as [|n IH]; intros a; simpl; constructor; auto.
  destruct n; simpl; constructor. lia.
Qed.

(** A list that is a rearrangement of 1..n sorts to 1..n. *)
Lemma sorts_to_one_to (l : list Z) (n : nat) :
  l ≡ₚ one_to n -> merge_sort Z.le l = one_to n.
Proof.
  intros Hp. apply (Sorted_unique Z.le).
  - apply Sorted_merge_sort; typeclasses eauto.
  - apply one_to_sorted.
  - rewrite merge_sort_Permutation. exact Hp.
Qed.

End Produced.

(** ** The native strategies: every increment is one indivisible step *)

Section Native.

Import Concurrent.

Variable atomic_increment : Z -> ValueType * Z.

Hypothesis atomic_increment_spec :
  forall x, atomic_increment x = (Int32.add x 1, Int32.add x 1).

Lemma native_inv_init (calls : list nat) :
  native_inv (sum_list calls) 0 (spawn NIdle calls).
Proof.
  unfold native_inv, spawn.
  assert (E : concat (map native_produced (map (fun k => mkThread NIdle k []) calls)) = []).
  { induction calls; simpl; auto. }
  rewrite E; simpl. repeat split; auto.
  induction calls; simpl; auto.
Qed.

Lemma native_inv_step (total : nat) (c : Z) l1 (t : thread native_pc) l2 c' t' :
  native_inv total c (l1 ++ t :: l2) ->
  native_step atomic_increment c t = Some (c', t') ->
  native_inv total c' (l1 ++ t' :: l2).
Proof.
  unfold native_inv, native_step. simpl.
  rewrite !map_app, !concat_app, !sum_list_with_app; simpl.
  rewrite !length_app.
  set (A := concat (map native_produced l1)).
  set (B := concat (map native_produced l2)).
  intros (Hc & Hp & Hn) Hstep.
  destruct t as [[|r] k rs]; simpl in *.
  - destruct k as [|k]; [ discriminate | ].
    rewrite atomic_increment_spec in Hstep.
    injection Hstep as <- <-.
    unfold native_produced in *; simpl in *.
    replace (length A + S (length rs + length B))%nat
      with (S (length A + (length rs + length B))) by lia.
    split; [ subst c; apply next_value | ].
    split; [ | lia ].
    rewrite wrapped_one_to_S, <- Hp, <- next_value, <- Hc.
    rewrite <- Permutation_middle, <- Permutation_cons_append. reflexivity.
  - injection Hstep as <- <-.
    unfold native_produced in *; simpl in *. auto.
Qed.

Lemma native_finished_handed (ts : list (thread native_pc)) :
  finished native_idle ts = true ->
  concat (map native_produced ts) = all_returned ts
  /\ sum_list_with pending ts = 0%nat.
Proof.
  unfold all_returned.
  induction ts as [|[p k rs] ts IH]; simpl; auto.
  intros H. apply andb_prop in H as [H1 H2]. apply andb_prop in H1 as [Hp Hk].
  destruct (IH H2) as [E1 E2]. apply Nat.eqb_eq in Hk.
  destruct p; try discriminate. unfold native_produced at 1; simpl.
  rewrite E1, E2, Hk. auto.
Qed.

(** Whatever the schedule, once all calls have returned the counter holds
    their number and the returned values are 1, 2, ... up to it (both as the
    32-bit counter holds them). *)
Lemma native_run_complete (calls sched : list nat) :
  let o := observe_native (run (native_step atomic_increment) sched (0, spawn NIdle calls)) in
  all_done o = true ->
  final_value o = Int32.wrap (Z.of_nat (sum_list calls))
  /\ results o ≡ₚ wrapped_one_to (sum_list calls).
Proof.
  simpl. intros Hdone.
  pose proof (run_invariant (native_step atomic_increment)
                (native_inv (sum_list calls)) (native_inv_step _)
                sched (0, spawn NIdle calls) (native_inv_init calls)) as Hinv.
  destruct (run _ sched _) as [c ts]; simpl in *.
  destruct (native_finished_handed ts Hdone) as [E1 E2].
  destruct Hinv as (Hc & Hp & Hn). rewrite E1, E2 in *.
  rewrite Nat.add_0_r in Hn. rewrite Hn in *. auto.
Qed.

End Native.

(** ** The generic strategy: increments are serialised by the FastMutex *)

Section GenericStrategy.

Import Concurrent.

Lemma spawn_pending {PC : Type} (idle : PC) (calls : list nat) :
  sum_list_with pending (spawn idle calls) = sum_list calls.
Proof. induction calls; simpl; auto. Qed.

Lemma generic_spawn_fresh (calls : list nat) :
  concat (map generic_produced (spawn GIdle calls)) = []
  /\ sum_list_with generic_in_flight (spawn GIdle calls) = 0%nat
  /\ sum_list_with generic_holds (spawn GIdle calls) = 0%nat.
Proof. induction calls; simpl; auto. Qed.

Lemma generic_inv_init (calls : list nat) :
  generic_inv (sum_list calls) (Generic.mkImpl false 0) (spawn GIdle calls).
Proof.
  unfold generic_inv.
  destruct (generic_spawn_fresh calls) as (E1 & E2 & E3).
  rewrite E1, E2, E3, spawn_pending; simpl. repeat split; auto with lia.
  unfold spawn. induction calls; simpl; constructor; auto. simpl. discriminate.
Qed.

Lemma no_holder_none_loaded (P : Z -> Prop) (l : list (thread generic_pc)) :
  sum_list_with generic_holds l = 0%nat ->
  Forall (fun t => forall old, pc t = GLoaded old -> P old) l.
Proof.
  induction l as [|[p k rs] l IH]; simpl; intros H; constructor.
  - simpl. intros old ->. unfold generic_holds in H; simpl in H. lia.
  - apply IH. lia.
Qed.

Lemma generic_inv_step (total : nat) c l1 (t : thread generic_pc) l2 c' t' :
  generic_inv total c (l1 ++ t :: l2) ->
  generic_step c t = Some (c', t') ->
  generic_inv total c' (l1 ++ t' :: l2).
Proof.
  unfold generic_inv, generic_step. simpl.
  rewrite !map_app, !concat_app, !sum_list_with_app; simpl.
  rewrite !length_app, !Forall_app, !Forall_cons.
  set (A := concat (map generic_produced l1)).
  set (B := concat (map generic_produced l2)).
  intros (Hc & Hp & Hn & Hm & Hl1 & Ht & Hl2) Hstep.
  destruct c as [m v]. destruct t as [p k rs]; simpl in *.
  destruct p as [ | | old | r | r ]; simpl in *.
  - (* the ScopedLock is constructed *)
    destruct k as [|k]; [ discriminate | ].
    unfold Generic.FastMutex_lock in Hstep; simpl in Hstep.
    destruct m; [ discriminate | ].
    injection Hstep as <- <-.
    unfold generic_produced, generic_in_flight, generic_holds in *; simpl in *.
    repeat split; auto; try lia. discriminate.
  - (* the volatile read *)
    injection Hstep as <- <-.
    unfold generic_produced, generic_in_flight, generic_holds in *; simpl in *.
    repeat split; auto. congruence.
  - (* the volatile write *)
    injection Hstep as <- <-.
    unfold generic_produced, generic_in_flight, generic_holds in *; simpl in *.
    specialize (Ht old eq_refl). subst old.
    assert (H1 : sum_list_with (fun t => match pc t with
                  | GLocked | GLoaded _ | GStored _ => 1 | _ => 0 end%nat) l1 = 0%nat)
      by (destruct m; lia).
    assert (H2 : sum_list_with (fun t => match pc t with
                  | GLocked | GLoaded _ | GStored _ => 1 | _ => 0 end%nat) l2 = 0%nat)
      by (destruct m; lia).
    replace (length A + S (length rs + length B))%nat
      with (S (length A + (length rs + length B))) by lia.
    split; [ subst v; apply next_value | ].
    split.
    { rewrite wrapped_one_to_S, <- Hp, <- next_value, <- Hc.
      rewrite <- Permutation_middle, <- Permutation_cons_append. reflexivity. }
    split; [ lia | ]. split; [ exact Hm | ].
    split; [ apply (no_holder_none_loaded _ l1 H1) | ].
    split; [ discriminate | apply (no_holder_none_loaded _ l2 H2) ].
  - (* the closing brace releases the lock *)
    injection Hstep as <- <-.
    unfold generic_produced, generic_in_flight, generic_holds in *; simpl in *.
    repeat split; auto; try (destruct m; lia). discriminate.
  - (* return result *)
    injection Hstep as <- <-.
    unfold generic_produced, generic_in_flight, generic_holds in *; simpl in *.
    repeat split; auto. discriminate.
Qed.

Lemma generic_finished_handed (ts : list (thread generic_pc)) :
  finished generic_idle ts = true ->
  concat (map generic_produced ts) = all_returned ts
  /\ sum_list_with pending ts = 0%nat
  /\ sum_list_with generic_in_flight ts = 0%nat.
Proof.
  unfold all_returned.
  induction ts as [|[p k rs] ts IH]; simpl; auto.
  intros H. apply andb_prop in H as [H1 H2]. apply andb_prop in H1 as [Hp Hk].
  destruct (IH H2) as (E1 & E2 & E3). apply Nat.eqb_eq in Hk.
  destruct p; try discriminate.
  unfold generic_produced at 1, generic_in_flight at 1; simpl.
  rewrite E1, E2, E3, Hk. auto.
Qed.

Lemma generic_run_complete (calls sched : list nat) :
  let o := observe_generic
             (run generic_step sched (Generic.mkImpl false 0, spawn GIdle calls)) in
  all_done o = true ->
  final_value o = Int32.wrap (Z.of_nat (sum_list calls))
  /\ results o ≡ₚ wrapped_one_to (sum_list calls).
Proof.
  simpl. intros Hdone.
  pose proof (run_invariant generic_step
                (generic_inv (sum_list calls)) (generic_inv_step _)
                sched (Generic.mkImpl false 0, spawn GIdle calls)
                (generic_inv_init calls)) as Hinv.
  destruct (run _ sched _) as [c ts]; simpl in *.
  destruct (generic_finished_handed ts Hdone) as (E1 & E2 & E3).
  destruct Hinv as (Hc & Hp & Hn & _). rewrite E1, E2, E3 in *.
  rewrite !Nat.add_0_r in Hn. rewrite Hn in *. auto.
Qed.

End GenericStrategy.

(** ** Every pool of threads can run to completion *)

Section Progress.

Import Concurrent.

Lemma finished_app {PC : Type} (idle : PC -> bool) (l1 l2 : list (thread PC)) :
  finished idle (l1 ++ l2) = finished idle l1 && finished idle l2.
Proof. unfold finished. apply forallb_app. Qed.

Lemma native_run_alone (inc : Z -> ValueType * Z) l1 l2 (k : nat) :
  forall c rs, exists c' rs',
    run (native_step inc) (repeat (length l1) (2 * k)) (c, l1 ++ mkThread NIdle k rs :: l2)
    = (c', l1 ++ mkThread NIdle 0 rs' :: l2).
Proof.
  induction k as [|k IH]; intros c rs.
  - exists c, rs. reflexivity.
  - replace (2 * S k)%nat with (S (S (2 * k))) by lia.
    cbn [repeat run].
    remember (inc c) as p eqn:E. destruct p as [r c1]. symmetry in E.
    rewrite (sched_step_middle _ c c1 l1 l2 (mkThread NIdle (S k) rs)
               (mkThread (NReturning r) k rs))
      by (unfold native_step; simpl; rewrite E; reflexivity).
    rewrite (sched_step_middle _ c1 c1 l1 l2 _ (mkThread NIdle k (r :: rs)))
      by reflexivity.
    apply IH.
Qed.

Lemma generic_run_alone l1 l2 (k : nat) :
  forall v rs, exists v' rs',
    run generic_step (repeat (length l1) (5 * k))
      (Generic.mkImpl false v, l1 ++ mkThread GIdle k rs :: l2)
    = (Generic.mkImpl false v', l1 ++ mkThread GIdle 0 rs' :: l2).
Proof.
  induction k as [|k IH]; intros v rs.
  - exists v, rs. reflexivity.
  - replace (5 * S k)%nat
      with (S (S (S (S (S (5 * k))))))
      by lia.
    cbn [repeat run].
    rewrite (sched_step_middle _ _ (Generic.mkImpl true v) l1 l2 _
               (mkThread GLocked k rs)) by reflexivity.
    rewrite (sched_step_middle _ _ (Generic.mkImpl true v) l1 l2 _
               (mkThread (GLoaded v) k rs)) by reflexivity.
    rewrite (sched_step_middle _ _ (Generic.mkImpl true (Int32.add v 1)) l1 l2 _
               (mkThread (GStored (Int32.add v 1)) k rs)) by reflexivity.
    rewrite (sched_step_middle _ _ (Generic.mkImpl false (Int32.add v 1)) l1 l2 _
               (mkThread (GReturning (Int32.add v 1)) k rs)) by reflexivity.
    rewrite (sched_step_middle _ _ (Generic.mkImpl false (Int32.add v 1)) l1 l2 _
               (mkThread GIdle k (Int32.add v 1 :: rs))) by reflexivity.
    apply IH.
Qed.

Lemma native_one_by_one (inc : Z -> ValueType * Z) (calls : list nat) :
  forall l1 c,
    finished native_idle l1 = true ->
    finished native_idle
      (snd (run (native_step inc) (one_by_one 2 (length l1) calls)
              (c, l1 ++ spawn NIdle calls))) = true.
Proof.
  induction calls as [|k calls IH]; intros l1 c Hl1; simpl.
  - rewrite app_nil_r. exact Hl1.
  - rewrite run_app.
    destruct (native_run_alone inc l1 (spawn NIdle calls) k c []) as (c' & rs' & E).
    simpl in E. rewrite Nat.add_0_r in E. rewrite Nat.add_0_r. rewrite E.
    rewrite (cons_middle _ l1), app_assoc.
    replace (S (length l1)) with (length (l1 ++ [mkThread NIdle 0 rs']))
      by (rewrite length_app; simpl; lia).
    apply IH. rewrite finished_app, Hl1. reflexivity.
Qed.

Lemma generic_one_by_one (calls : list nat) :
  forall l1 v,
    finished generic_idle l1 = true ->
    finished generic_idle
      (snd (run generic_step (one_by_one 5 (length l1) calls)
              (Generic.mkImpl false v, l1 ++ spawn GIdle calls))) = true.
Proof.
  induction calls as [|k calls IH]; intros l1 v Hl1; simpl.
  - rewrite app_nil_r. exact Hl1.
  - rewrite run_app.
    destruct (generic_run_alone l1 (spawn GIdle calls) k v []) as (v' & rs' & E).
    simpl in E. simpl. rewrite E.
    rewrite (cons_middle _ l1), app_assoc.
    replace (S (length l1)) with (length (l1 ++ [mkThread GIdle 0 rs']))
      by (rewrite length_app; simpl; lia).
    apply IH. rewrite finished_app, Hl1. reflexivity.
Qed.

(** Letting the threads run one after the other completes every call. *)
Lemma one_by_one_completes (os : POCO_OS) (calls : list nat) :
  all_done (execute os calls (one_by_one (steps_per_call os) 0 calls)) = true.
Proof.
  destruct os; simpl.
  - apply (native_one_by_one _ calls [] 0). reflexivity.
  - apply (native_one_by_one _ calls [] 0). reflexivity.
  - apply (generic_one_by_one calls [] 0). reflexivity.
Qed.

End Progress.

(** ** A call made by a thread is the call of the class *)

Section LoneThread.

Import Concurrent.

(** A thread that runs its [++counter] alone goes through the steps of the
    method: it ends with the value and the counter the method returns. *)
Lemma windows_lone_call (c : Z) :
  run (native_step Windows.InterlockedIncrement) [0; 0]%nat (c, [mkThread NIdle 1 []])
  = (snd (Windows.operator_inc_prefix c),
     [mkThread NIdle 0 [fst (Windows.operator_inc_prefix c)]]).
Proof. reflexivity. Qed.

Lemma macosx_lone_call (c : Z) :
  run (native_step MacOSX.OSAtomicIncrement32) [0; 0]%nat (c, [mkThread NIdle 1 []])
  = (snd (MacOSX.operator_inc_prefix c),
     [mkThread NIdle 0 [fst (MacOSX.operator_inc_prefix c)]]).
Proof. reflexivity. Qed.

Lemma generic_lone_call (v : Z) :
  exists r c',
    Generic.operator_inc_prefix (Generic.mkImpl false v) = Returned (r, c')
    /\ run generic_step [0; 0; 0; 0; 0]%nat
         (Generic.mkImpl false v, [mkThread GIdle 1 []])
       = (c', [mkThread GIdle 0 [r]]).
Proof. do 2 eexists. split; reflexivity. Qed.

End LoneThread.

(** ** No reachable state is stuck *)

Section NoDeadlock.

Import Concurrent.

Lemma unfinished_thread {PC : Type} (idle : PC -> bool) (ts : list (thread PC)) :
  finished idle ts = false ->
  exists l1 t l2,
    ts = l1 ++ t :: l2 /\ idle (pc t) && Nat.eqb (pending t) 0 = false.
Proof.
  induction ts as [|t ts IH]; simpl; [ discriminate | ].
  destruct (idle (pc t) && Nat.eqb (pending t) 0) eqn:E; simpl.
  - intros H. destruct (IH H) as (l1 & t0 & l2 & -> & Ht0).
    exists (t :: l1), t0, l2. auto.
  - intros _. exists [], t, ts. auto.
Qed.

Lemma holder_thread (ts : list (thread generic_pc)) :
  sum_list_with generic_holds ts <> 0%nat ->
  exists l1 t l2, ts = l1 ++ t :: l2 /\ generic_holds t = 1%nat.
Proof.
  induction ts as [|t ts IH]; simpl; [ congruence | ].
  destruct (generic_holds t) as [|[|n]] eqn:E; simpl.
  - intros H. destruct (IH H) as (l1 & t0 & l2 & -> & Ht0).
    exists (t :: l1), t0, l2. auto.
  - intros _. exists [], t, ts. auto.
  - unfold generic_holds in E. destruct (pc t); discriminate.
Qed.

(** Under the native strategies a thread with a call to make or a value to
    hand back can always take its step. *)
Lemma native_enabled (inc : Z -> ValueType * Z) (c : Z) (ts : list (thread native_pc)) :
  finished native_idle ts = false ->
  exists l1 t l2 c' t',
    ts = l1 ++ t :: l2 /\ native_step inc c t = Some (c', t').
Proof.
  intros H. destruct (unfinished_thread _ _ H) as (l1 & t & l2 & -> & Ht).
  exists l1, t, l2. destruct t as [[|r] [|k] rs]; simpl in *; try discriminate;
    unfold native_step; simpl; try destruct (inc c); eauto.
Qed.

(** Under the generic strategy: while the mutex is held, its holder can
    step; while it is free, every thread that has not finished can. *)
Lemma generic_enabled (total : nat) (c : Generic.ImplType)
    (ts : list (thread generic_pc)) :
  generic_inv total c ts ->
  finished generic_idle ts = false ->
  exists l1 t l2 c' t',
    ts = l1 ++ t :: l2 /\ generic_step c t = Some (c', t').
Proof.
  intros (_ & _ & _ & Hm & _) H. destruct c as [[|] v]; simpl in Hm.
  - destruct (holder_thread ts) as (l1 & t & l2 & -> & Ht); [ lia | ].
    exists l1, t, l2. destruct t as [p k rs].
    destruct p; try discriminate; unfold generic_step; simpl; eauto.
  - destruct (unfinished_thread _ _ H) as (l1 & t & l2 & -> & Ht).
    exists l1, t, l2. destruct t as [p [|k] rs].
    all: destruct p; simpl in Ht; try discriminate; unfold generic_step; simpl; eauto.
Qed.

Lemma generic_no_deadlock (calls sched : list nat) :
  let st := run generic_step sched (Generic.mkImpl false 0, spawn GIdle calls) in
  finished generic_idle (snd st) = false ->
  exists l1 t l2 c' t',
    snd st = l1 ++ t :: l2 /\ generic_step (fst st) t = Some (c', t').
Proof.
  intros st. apply (generic_enabled (sum_list calls)).
  apply (run_invariant generic_step (generic_inv (sum_list calls))
           (generic_inv_step _) sched
           (Generic.mkImpl false 0, spawn GIdle calls) (generic_inv_init calls)).
Qed.

End NoDeadlock.

(** ** Concurrent increments *)

Section ConcurrentIncrements.

Import Concurrent.

(** Under every strategy and every schedule: once all calls have returned,
    the counter holds their number reduced to 32 bits, and the returned
    values are the first that many values the counter runs through. *)
Lemma execute_complete (os : POCO_OS) (calls sched : list nat) :
  all_done (execute os calls sched) = true ->
  final_value (execute os calls sched) = Int32.wrap (Z.of_nat (sum_list calls))
  /\ results (execute os calls sched) ≡ₚ wrapped_one_to (sum_list calls).
Proof.
  destruct os; unfold execute.
  - apply native_run_complete. reflexivity.
  - apply native_run_complete. reflexivity.
  - apply generic_run_complete.
Qed.

Lemma two_to_the_31 : Z.of_nat (sum_list [Nat.pow 2 30; Nat.pow 2 30]) = 2147483648.
Proof.
  change (sum_list [Nat.pow 2 30; Nat.pow 2 30])
    with (Nat.pow 2 30 + (Nat.pow 2 30 + 0))%nat.
  rewrite !Nat2Z.inj_add, !Nat2Z.inj_pow. reflexivity.
Qed.

End ConcurrentIncrements.

(** C1, as stated, fails: two threads that make 2^30 calls each make
    N = 2^31 calls in all; under the Windows strategy every schedule that
    completes them (there is one) leaves the counter at -2^31, not at N. *)
Lemma concurrent_increments_overflow :
  Z.of_nat (sum_list [Nat.pow 2 30; Nat.pow 2 30]) = 2147483648
  /\ (exists sched,
        Concurrent.all_done
          (Concurrent.execute POCO_OS_WINDOWS_NT [Nat.pow 2 30; Nat.pow 2 30] sched) = true)
  /\ (forall sched,
        Concurrent.all_done
          (Concurrent.execute POCO_OS_WINDOWS_NT [Nat.pow 2 30; Nat.pow 2 30] sched) = true ->
        Concurrent.final_value
          (Concurrent.execute POCO_OS_WINDOWS_NT [Nat.pow 2 30; Nat.pow 2 30] sched)
        = -2147483648).
Proof.
  split; [ exact two_to_the_31 | ].
  split.
  - eexists. apply (one_by_one_completes POCO_OS_WINDOWS_NT).
  - intros sched Hdone.
    destruct (execute_complete _ _ _ Hdone) as [Hv _].
    rewrite Hv, two_to_the_31. reflexivity.
Qed.

(** C1 (amended): for every number N of calls up to the largest [int],
    2^31 - 1, made by any number of threads (thread i makes [calls !! i] of
    them, N in all) on a counter that starts at 0, under every strategy: the
    calls can all complete, and whenever a schedule has completed them the
    counter holds exactly N and the values the calls returned are a
    rearrangement of 1, 2, ..., N; sorted, they are that list. *)
Theorem concurrent_increments_exact (os : POCO_OS) (calls : list nat) :
  Z.of_nat (sum_list calls) <= Int32.max_signed ->
  (exists sched, Concurrent.all_done (Concurrent.execute os calls sched) = true)
  /\ (forall sched,
        Concurrent.all_done (Concurrent.execute os calls sched) = true ->
        Concurrent.final_value (Concurrent.execute os calls sched)
        = Z.of_nat (sum_list calls)
        /\ Concurrent.results (Concurrent.execute os calls sched)
           ≡ₚ Concurrent.one_to (sum_list calls)
        /\ merge_sort Z.le (Concurrent.results (Concurrent.execute os calls sched))
           = Concurrent.one_to (sum_list calls)).
Proof.
  intros Hsmall. split.
  - eexists. apply one_by_one_completes.
  - intros sched Hdone.
    destruct (execute_complete os calls sched Hdone) as [Hv Hp].
    rewrite wrapped_one_to_small in Hp by exact Hsmall.
    rewrite wrap_id in Hv by (int32_unfold; lia).
    auto using sorts_to_one_to.
Qed.

(** Three threads making 2, 1 and 2 calls under the generic strategy, with
    their steps interleaved. *)
Lemma concurrent_increments_exact_witness :
  Concurrent.final_value
    (Concurrent.execute POCO_OS_OTHER [2; 1; 2]%nat
       [0; 1; 2; 0; 2; 0; 1; 0; 0; 1; 1; 2; 1; 1; 1; 0; 2; 2; 2; 2; 0;
        0; 0; 0; 0; 2; 2; 2; 2; 2; 2; 2; 2; 2; 2]%nat) = 5
  /\ merge_sort Z.le
       (Concurrent.results
          (Concurrent.execute POCO_OS_OTHER [2; 1; 2]%nat
             [0; 1; 2; 0; 2; 0; 1; 0; 0; 1; 1; 2; 1; 1; 1; 0; 2; 2; 2; 2; 0;
              0; 0; 0; 0; 2; 2; 2; 2; 2; 2; 2; 2; 2; 2]%nat)) = [1; 2; 3; 4; 5].
Proof.
  assert (Hsmall : Z.of_nat (sum_list [2; 1; 2]%nat) <= Int32.max_signed)
    by (vm_compute; discriminate).
  destruct (concurrent_increments_exact POCO_OS_OTHER [2; 1; 2]%nat Hsmall)
    as [_ H].
  destruct (H [0; 1; 2; 0; 2; 0; 1; 0; 0; 1; 1; 2; 1; 1; 1; 0; 2; 2; 2; 2; 0;
               0; 0; 0; 0; 2; 2; 2; 2; 2; 2; 2; 2; 2; 2]%nat eq_refl) as (Hv & _ & Hs).
  split; [ exact Hv | exact Hs ].
Defined.

(** ** Increment and decrement, prefix and postfix *)

(** C2, as stated, fails at the largest [int]: the counter cannot be left at
    2^31 - 1 + 1; both forms leave it at -2^31, and the prefix form returns
    that value. *)
Lemma increment_at_max_wraps :
  AtomicCounter.operator_inc_postfix POCO_OS_OTHER (Generic.mkImpl false 2147483647)
  = Returned (2147483647, Generic.mkImpl false (-2147483648))
  /\ AtomicCounter.operator_inc_prefix POCO_OS_OTHER (Generic.mkImpl false 2147483647)
     = Returned (-2147483648, Generic.mkImpl false (-2147483648))
  /\ AtomicCounter.operator_inc_prefix POCO_OS_WINDOWS_NT 2147483647
     = Returned (-2147483648, -2147483648)
  /\ AtomicCounter.operator_inc_prefix POCO_OS_MAC_OS_X 2147483647
     = Returned (-2147483648, -2147483648)
  /\ -2147483648 <> 2147483647 + 1.
Proof. repeat split. discriminate. Qed.

(** C2 (amended): for a counter whose current value is v, the postfix
    increment returns v and the prefix increment returns the new value, and
    both leave the counter at the new value; the new value is v + 1 when v is
    below the largest [int] 2^31 - 1, and the smallest [int] -2^31 when v is
    the largest. *)
Theorem increment_forms (os : POCO_OS) (c : AtomicCounter.ImplType os) :
  AtomicCounter.quiescent os c ->
  (exists c',
      AtomicCounter.operator_inc_postfix os c
      = Returned (AtomicCounter.stored os c, c')
      /\ AtomicCounter.stored os c' = Int32.add (AtomicCounter.stored os c) 1
      /\ AtomicCounter.quiescent os c')
  /\ (exists c',
         AtomicCounter.operator_inc_prefix os c
         = Returned (Int32.add (AtomicCounter.stored os c) 1, c')
         /\ AtomicCounter.stored os c' = Int32.add (AtomicCounter.stored os c) 1
         /\ AtomicCounter.quiescent os c')
  /\ (AtomicCounter.stored os c < Int32.max_signed ->
      Int32.add (AtomicCounter.stored os c) 1 = AtomicCounter.stored os c + 1)
  /\ (AtomicCounter.stored os c = Int32.max_signed ->
      Int32.add (AtomicCounter.stored os c) 1 = Int32.min_signed).
Proof.
  intros [Hrange Hfree].
  split; [ | split; [ | split ] ].
  - destruct (operator_inc_postfix_returns os c Hfree) as (c' & E & Hv & Hu).
    exists c'. split; [ exact E | split; [ exact Hv | split; [ | exact Hu ] ] ].
    rewrite Hv. apply add_in_range.
  - destruct (operator_inc_prefix_returns os c Hfree) as (c' & E & Hv & Hu).
    exists c'. split; [ exact E | split; [ exact Hv | split; [ | exact Hu ] ] ].
    rewrite Hv. apply add_in_range.
  - intros Hlt. apply add_1_no_overflow; assumption.
  - intros ->. apply add_1_overflow.
Qed.

(** The spec's example: a counter at 5. *)
Lemma increment_forms_witness :
  exists c',
    AtomicCounter.operator_inc_postfix POCO_OS_OTHER (Generic.mkImpl false 5)
    = Returned (5, c')
    /\ AtomicCounter.stored POCO_OS_OTHER c' = 6.
Proof.
  assert (Hq : AtomicCounter.quiescent POCO_OS_OTHER (Generic.mkImpl false 5)).
  { split; [ split; vm_compute; discriminate | reflexivity ]. }
  destruct (increment_forms POCO_OS_OTHER (Generic.mkImpl false 5) Hq)
    as ((c' & E & Hv & _) & _).
  exists c'. split; [ exact E | exact Hv ].
Defined.

(** C3, as stated, fails at the smallest [int]: the counter cannot be left
    at -2^31 - 1; both forms leave it at 2^31 - 1. *)
Lemma decrement_at_min_wraps :
  AtomicCounter.operator_dec_postfix POCO_OS_OTHER (Generic.mkImpl false (-2147483648))
  = Returned (-2147483648, Generic.mkImpl false 2147483647)
  /\ AtomicCounter.operator_dec_prefix POCO_OS_OTHER (Generic.mkImpl false (-2147483648))
     = Returned (2147483647, Generic.mkImpl false 2147483647)
  /\ AtomicCounter.operator_dec_prefix POCO_OS_WINDOWS_NT (-2147483648)
     = Returned (2147483647, 2147483647)
  /\ AtomicCounter.operator_dec_prefix POCO_OS_MAC_OS_X (-2147483648)
     = Returned (2147483647, 2147483647)
  /\ 2147483647 <> -2147483648 - 1.
Proof. repeat split. discriminate. Qed.

(** C3 (amended): for a counter whose current value is v, the postfix
    decrement returns v and the prefix decrement returns the new value, and
    both leave the counter at the new value; the new value is v - 1 when v is
    above the smallest [int] -2^31, and the largest [int] 2^31 - 1 when v is
    the smallest. *)
Theorem decrement_forms (os : POCO_OS) (c : AtomicCounter.ImplType os) :
  AtomicCounter.quiescent os c ->
  (exists c',
      AtomicCounter.operator_dec_postfix os c
      = Returned (AtomicCounter.stored os c, c')
      /\ AtomicCounter.stored os c' = Int32.sub (AtomicCounter.stored os c) 1
      /\ AtomicCounter.quiescent os c')
  /\ (exists c',
         AtomicCounter.operator_dec_prefix os c
         = Returned (Int32.sub (AtomicCounter.stored os c) 1, c')
         /\ AtomicCounter.stored os c' = Int32.sub (AtomicCounter.stored os c) 1
         /\ AtomicCounter.quiescent os c')
  /\ (Int32.min_signed < AtomicCounter.stored os c ->
      Int32.sub (AtomicCounter.stored os c) 1 = AtomicCounter.stored os c - 1)
  /\ (AtomicCounter.stored os c = Int32.min_signed ->
      Int32.sub (AtomicCounter.stored os c) 1 = Int32.max_signed).
Proof.
  intros [Hrange Hfree].
  split; [ | split; [ | split ] ].
  - destruct (operator_dec_postfix_returns os c Hfree) as (c' & E & Hv & Hu).
    exists c'. split; [ exact E | split; [ exact Hv | split; [ | exact Hu ] ] ].
    rewrite Hv. apply sub_in_range.
  - destruct (operator_dec_prefix_returns os c Hfree) as (c' & E & Hv & Hu).
    exists c'. split; [ exact E | split; [ exact Hv | split; [ | exact Hu ] ] ].
    rewrite Hv. apply sub_in_range.
  - intros Hlt. apply sub_1_no_overflow; assumption.
  - intros ->. apply sub_1_underflow.
Qed.

(** The spec's example: a counter at 5. *)
Lemma decrement_forms_witness :
  exists c',
    AtomicCounter.operator_dec_postfix POCO_OS_OTHER (Generic.mkImpl false 5)
    = Returned (5, c')
    /\ AtomicCounter.stored POCO_OS_OTHER c' = 4.
Proof.
  assert (Hq : AtomicCounter.quiescent POCO_OS_OTHER (Generic.mkImpl false 5)).
  { split; [ split; vm_compute; discriminate | reflexivity ]. }
  destruct (decrement_forms POCO_OS_OTHER (Generic.mkImpl false 5) Hq)
    as ((c' & E & Hv & _) & _).
  exists c'. split; [ exact E | exact Hv ].
Defined.

(** ** Construction and reading *)

(** C4: for every integer v in the representable range, a counter
    constructed with initial value v reads back v (and is left as
    constructed by the read), and a default-constructed counter reads back 0. *)
Theorem construct_reads_back (os : POCO_OS) (v : Z) :
  Int32.in_range v ->
  AtomicCounter.value os (AtomicCounter.construct_init os v)
  = Returned (v, AtomicCounter.construct_init os v)
  /\ AtomicCounter.quiescent os (AtomicCounter.construct_init os v)
  /\ AtomicCounter.value os (AtomicCounter.construct os)
     = Returned (0, AtomicCounter.construct os).
Proof.
  intros Hv. unfold AtomicCounter.construct.
  rewrite !value_returns by apply construct_init_unlocked.
  rewrite !construct_init_stored.
  repeat split; try apply construct_init_unlocked;
    rewrite construct_init_stored; apply Hv.
Qed.

Lemma construct_reads_back_witness :
  AtomicCounter.value POCO_OS_OTHER (AtomicCounter.construct_init POCO_OS_OTHER (-7))
  = Returned (-7, Generic.mkImpl false (-7)).
Proof.
  assert (Hv : Int32.in_range (-7)) by (split; vm_compute; discriminate).
  exact (proj1 (construct_reads_back POCO_OS_OTHER (-7) Hv)).
Defined.

(** C5: for every counter state (between calls, so with its lock free),
    [operator !] returns true if and only if the counter's current value,
    which is what [value()] returns, equals 0; the call leaves the counter
    as it was. *)
Theorem operator_not_iff_zero (os : POCO_OS) (c : AtomicCounter.ImplType os) :
  AtomicCounter.unlocked os c ->
  exists b,
    AtomicCounter.operator_not os c = Returned (b, c)
    /\ AtomicCounter.value os c = Returned (AtomicCounter.stored os c, c)
    /\ (b = true <-> AtomicCounter.stored os c = 0).
Proof.
  intros Hfree. exists (AtomicCounter.stored os c =? 0).
  split; [ apply operator_not_returns; exact Hfree | ].
  split; [ apply value_returns; exact Hfree | ].
  apply Z.eqb_eq.
Qed.

Lemma operator_not_iff_zero_witness :
  AtomicCounter.operator_not POCO_OS_OTHER (Generic.mkImpl false 0)
  = Returned (true, Generic.mkImpl false 0).
Proof.
  destruct (operator_not_iff_zero POCO_OS_OTHER (Generic.mkImpl false 0) eq_refl)
    as (b & E & _ & Hb).
  rewrite E. f_equal. f_equal. apply Hb. reflexivity.
Defined.

(** The spec's scenario for [isZero]: true at 0, false after one increment,
    true again after decrementing back. *)
Lemma operator_not_scenario (os : POCO_OS) :
  exists c1 c2,
    AtomicCounter.operator_not os (AtomicCounter.construct os)
    = Returned (true, AtomicCounter.construct os)
    /\ AtomicCounter.operator_inc_prefix os (AtomicCounter.construct os)
       = Returned (1, c1)
    /\ AtomicCounter.operator_not os c1 = Returned (false, c1)
    /\ AtomicCounter.operator_dec_prefix os c1 = Returned (0, c2)
    /\ AtomicCounter.operator_not os c2 = Returned (true, c2).
Proof. destruct os; do 2 eexists; repeat split. Qed.

(** ** Overflow *)

(** C6: increment and decrement follow the wraparound of the 32-bit
    two's-complement [int]: for every value v of a counter (between calls),
    either increment returns normally and leaves the [int] whose bit pattern
    is (v + 1) mod 2^32, either decrement the one whose bit pattern is
    (v - 1) mod 2^32; at the largest [int] the increment leaves the
    smallest, and at the smallest the decrement leaves the largest. *)
Theorem increment_decrement_wrap (os : POCO_OS) (c : AtomicCounter.ImplType os) :
  AtomicCounter.unlocked os c ->
  (exists r c',
      AtomicCounter.operator_inc_prefix os c = Returned (r, c')
      /\ r = AtomicCounter.stored os c'
      /\ Int32.in_range (AtomicCounter.stored os c')
      /\ Int32.unsigned (AtomicCounter.stored os c')
         = (AtomicCounter.stored os c + 1) mod Int32.modulus
      /\ (AtomicCounter.stored os c = Int32.max_signed ->
          AtomicCounter.stored os c' = Int32.min_signed))
  /\ (exists r c',
         AtomicCounter.operator_inc_postfix os c = Returned (r, c')
         /\ r = AtomicCounter.stored os c
         /\ Int32.in_range (AtomicCounter.stored os c')
         /\ Int32.unsigned (AtomicCounter.stored os c')
            = (AtomicCounter.stored os c + 1) mod Int32.modulus
         /\ (AtomicCounter.stored os c = Int32.max_signed ->
             AtomicCounter.stored os c' = Int32.min_signed))
  /\ (exists r c',
         AtomicCounter.operator_dec_prefix os c = Returned (r, c')
         /\ r = AtomicCounter.stored os c'
         /\ Int32.in_range (AtomicCounter.stored os c')
         /\ Int32.unsigned (AtomicCounter.stored os c')
            = (AtomicCounter.stored os c - 1) mod Int32.modulus
         /\ (AtomicCounter.stored os c = Int32.min_signed ->
             AtomicCounter.stored os c' = Int32.max_signed))
  /\ (exists r c',
         AtomicCounter.operator_dec_postfix os c = Returned (r, c')
         /\ r = AtomicCounter.stored os c
         /\ Int32.in_range (AtomicCounter.stored os c')
         /\ Int32.unsigned (AtomicCounter.stored os c')
            = (AtomicCounter.stored os c - 1) mod Int32.modulus
         /\ (AtomicCounter.stored os c = Int32.min_signed ->
             AtomicCounter.stored os c' = Int32.max_signed)).
Proof.
  intros Hfree.
  split; [ | split; [ | split ] ].
  - destruct (operator_inc_prefix_returns os c Hfree) as (c' & E & Hv & _).
    exists (Int32.add (AtomicCounter.stored os c) 1), c'. rewrite Hv.
    split; [ exact E | split; [ reflexivity | ] ].
    split; [ apply add_in_range | split; [ apply unsigned_add | ] ].
    intros ->. apply add_1_overflow.
  - destruct (operator_inc_postfix_returns os c Hfree) as (c' & E & Hv & _).
    exists (AtomicCounter.stored os c), c'. rewrite Hv.
    split; [ exact E | split; [ reflexivity | ] ].
    split; [ apply add_in_range | split; [ apply unsigned_add | ] ].
    intros ->. apply add_1_overflow.
  - destruct (operator_dec_prefix_returns os c Hfree) as (c' & E & Hv & _).
    exists (Int32.sub (AtomicCounter.stored os c) 1), c'. rewrite Hv.
    split; [ exact E | split; [ reflexivity | ] ].
    split; [ apply sub_in_range | split; [ apply unsigned_sub | ] ].
    intros ->. apply sub_1_underflow.
  - destruct (operator_dec_postfix_returns os c Hfree) as (c' & E & Hv & _).
    exists (AtomicCounter.stored os c), c'. rewrite Hv.
    split; [ exact E | split; [ reflexivity | ] ].
    split; [ apply sub_in_range | split; [ apply unsigned_sub | ] ].
    intros ->. apply sub_1_underflow.
Qed.

Lemma increment_decrement_wrap_witness :
  exists r c',
    AtomicCounter.operator_inc_prefix POCO_OS_OTHER
      (Generic.mkImpl false Int32.max_signed) = Returned (r, c')
    /\ r = Int32.min_signed.
Proof.
  destruct (increment_decrement_wrap POCO_OS_OTHER
              (Generic.mkImpl false Int32.max_signed) eq_refl)
    as ((r & c' & E & Hr & _ & _ & Hmax) & _).
  exists r, c'. split; [ exact E | ].
  rewrite Hr. apply Hmax. reflexivity.
Defined.

(** ** Counters in the store *)

Section StoreFacts.

Variable os : POCO_OS.

Implicit Types h : gmap nat (AtomicCounter.ImplType os).

Lemma invoke_returns {A : Type} (m : AtomicCounter.method os A) h (l : nat) c r c' :
  h !! l = Some c -> m c = Returned (r, c') ->
  Store.invoke os l m h = Returned (r, <[l := c']> h).
Proof. intros Hl Hm. unfold Store.invoke. rewrite Hl, Hm. reflexivity. Qed.

(** A call through one location leaves every other location alone. *)
Lemma invoke_frame {A : Type} (m : AtomicCounter.method os A) h h' (a b : nat) r :
  Store.invoke os a m h = Returned (r, h') -> b <> a -> h' !! b = h !! b.
Proof.
  unfold Store.invoke. intros H Hne.
  destruct (h !! a) as [c|]; [ | discriminate ].
  destruct (m c) as [[r' c']| |]; simpl in H; try discriminate.
  injection H as _ <-. apply lookup_insert_ne. congruence.
Qed.

Lemma invoke_value h (l : nat) c :
  h !! l = Some c -> AtomicCounter.unlocked os c ->
  Store.invoke os l (AtomicCounter.value os) h
  = Returned (AtomicCounter.stored os c, h).
Proof.
  intros Hl Hfree.
  rewrite (invoke_returns _ h l c _ c Hl (value_returns os c Hfree)).
  rewrite insert_id by exact Hl. reflexivity.
Qed.

End StoreFacts.

(** C7: copy construction takes a snapshot.  If the counter at [a] has value
    v (10 in the spec's example) and [b] is copy-constructed from it, then
    [b] is a counter of its own that reads v; every call made on [a]
    afterwards leaves what [b] reads unchanged, and in particular after
    [++a] the counter [a] reads the incremented value while [b] still
    reads v. *)
Theorem copy_is_snapshot (os : POCO_OS) (h : gmap nat (AtomicCounter.ImplType os))
    (a : nat) (ca : AtomicCounter.ImplType os) (v : Z) :
  h !! a = Some ca ->
  AtomicCounter.quiescent os ca ->
  AtomicCounter.stored os ca = v ->
  exists b h1,
    Store.construct_copy os a h = Returned (b, h1)
    /\ b <> a
    /\ Store.invoke os b (AtomicCounter.value os) h1 = Returned (v, h1)
    /\ Store.invoke os a (AtomicCounter.value os) h1 = Returned (v, h1)
    /\ (forall (A : Type) (m : AtomicCounter.method os A) r h2,
           Store.invoke os a m h1 = Returned (r, h2) ->
           Store.invoke os b (AtomicCounter.value os) h2 = Returned (v, h2))
    /\ (exists h2,
           Store.invoke os a (AtomicCounter.operator_inc_prefix os) h1
           = Returned (Int32.add v 1, h2)
           /\ Store.invoke os a (AtomicCounter.value os) h2
              = Returned (Int32.add v 1, h2)
           /\ Int32.add v 1 <> v
           /\ Store.invoke os b (AtomicCounter.value os) h2 = Returned (v, h2)).
Proof.
  intros Ha [Hrange Hfree] Hv.
  set (b := fresh (dom h)).
  set (cb := AtomicCounter.construct_init os v).
  assert (Hb : h !! b = None).
  { apply not_elem_of_dom. apply is_fresh. }
  assert (Hne : b <> a) by congruence.
  assert (Hcopy : Store.construct_copy os a h = Returned (b, <[b := cb]> h)).
  { unfold Store.construct_copy.
    rewrite (invoke_value os h a ca Ha Hfree). simpl. rewrite Hv. reflexivity. }
  assert (Hcb : AtomicCounter.stored os cb = v) by apply construct_init_stored.
  assert (Hub : AtomicCounter.unlocked os cb) by apply construct_init_unlocked.
  assert (Hframe : forall (A : Type) (m : AtomicCounter.method os A) r h2,
             Store.invoke os a m (<[b := cb]> h) = Returned (r, h2) ->
             Store.invoke os b (AtomicCounter.value os) h2 = Returned (v, h2)).
  { intros A m r h2 Hm. rewrite <- Hcb. apply invoke_value; [ | exact Hub ].
    rewrite (invoke_frame os m _ _ a b r Hm Hne). apply lookup_insert_eq. }
  exists b, (<[b := cb]> h).
  split; [ exact Hcopy | ]. split; [ exact Hne | ].
  split; [ rewrite <- Hcb; apply invoke_value; [ apply lookup_insert_eq | exact Hub ] | ].
  assert (Ha1 : <[b := cb]> h !! a = Some ca).
  { rewrite lookup_insert_ne by exact Hne. exact Ha. }
  split; [ rewrite <- Hv; apply invoke_value; [ exact Ha1 | exact Hfree ] | ].
  split; [ exact Hframe | ].
  destruct (operator_inc_prefix_returns os ca Hfree) as (ca' & E & Hv' & Hu').
  rewrite Hv in E, Hv'.
  pose proof (invoke_returns os _ _ a ca _ ca' Ha1 E) as Hinc.
  exists (<[a := ca']> (<[b := cb]> h)).
  split; [ exact Hinc | ].
  split; [ rewrite <- Hv'; apply invoke_value; [ apply lookup_insert_eq | exact Hu' ] | ].
  split; [ apply add_1_neq; rewrite <- Hv; exact Hrange | ].
  apply (Hframe _ _ _ _ Hinc).
Qed.

(** The spec's example: [a] has value 10. *)
Lemma copy_is_snapshot_witness :
  exists b h1 h2,
    Store.construct_copy POCO_OS_OTHER 0 {[ 0%nat := Generic.mkImpl false 10 ]}
    = Returned (b, h1)
    /\ Store.invoke POCO_OS_OTHER b (AtomicCounter.value POCO_OS_OTHER) h1
       = Returned (10, h1)
    /\ Store.invoke POCO_OS_OTHER 0 (AtomicCounter.operator_inc_prefix POCO_OS_OTHER) h1
       = Returned (11, h2)
    /\ Store.invoke POCO_OS_OTHER b (AtomicCounter.value POCO_OS_OTHER) h2
       = Returned (10, h2).
Proof.
  assert (Hq : AtomicCounter.quiescent POCO_OS_OTHER (Generic.mkImpl false 10)).
  { split; [ split; vm_compute; discriminate | reflexivity ]. }
  destruct (copy_is_snapshot POCO_OS_OTHER {[ 0%nat := Generic.mkImpl false 10 ]}
              0%nat (Generic.mkImpl false 10) 10
              (lookup_singleton_eq 0%nat (Generic.mkImpl false 10)) Hq eq_refl)
    as (b & h1 & Hcopy & _ & Hb & _ & _ & (h2 & Hinc & _ & _ & Hb2)).
  exists b, h1, h2. repeat split; assumption.
Defined.

(** ** Every operation completes *)

Section Completion.

Variable os : POCO_OS.

Lemma completes_intro {A : Type} (o : outcome (A * AtomicCounter.ImplType os))
    (r : A) (c' : AtomicCounter.ImplType os) (v : Z) :
  o = Returned (r, c') -> AtomicCounter.stored os c' = v ->
  AtomicCounter.unlocked os c' -> Int32.in_range v -> completes os o.
Proof.
  intros E Hv Hu Hr. exists r, c'. split; [ exact E | ].
  split; [ rewrite Hv; exact Hr | exact Hu ].
Qed.

Lemma construct_init_quiescent (v : Z) :
  Int32.in_range v -> AtomicCounter.quiescent os (AtomicCounter.construct_init os v).
Proof.
  intros Hv. split; [ rewrite construct_init_stored; exact Hv | ].
  apply construct_init_unlocked.
Qed.

Lemma construct_copy_returns (other : AtomicCounter.ImplType os) :
  AtomicCounter.unlocked os other ->
  AtomicCounter.construct_copy os other
  = Returned (AtomicCounter.construct_init os (AtomicCounter.stored os other), other).
Proof.
  intros Hu. unfold AtomicCounter.construct_copy.
  rewrite value_returns by exact Hu. reflexivity.
Qed.

Lemma assign_copy_returns (other self : AtomicCounter.ImplType os) :
  AtomicCounter.unlocked os other -> AtomicCounter.unlocked os self ->
  exists self',
    AtomicCounter.assign_copy os other self = Returned (self', other)
    /\ AtomicCounter.stored os self' = AtomicCounter.stored os other
    /\ AtomicCounter.unlocked os self'.
Proof.
  intros Ho Hs. unfold AtomicCounter.assign_copy.
  rewrite value_returns by exact Ho. simpl.
  destruct (assign_returns os self (AtomicCounter.stored os other) Hs)
    as (self' & E & Hv & Hu).
  rewrite E. simpl. eauto.
Qed.

End Completion.

(** C8: for every counter between calls, every other such counter and every
    integer within the representable range, each operation returns (it does
    not block, and no result of the class is an exception or an error code)
    and leaves the counters it touched ready for the next call: the three
    constructors, the two assignments, the two reads, the four increments
    and decrements, and [operator !]. *)
Theorem operations_complete (os : POCO_OS) (c other : AtomicCounter.ImplType os)
    (v : Z) :
  AtomicCounter.quiescent os c ->
  AtomicCounter.quiescent os other ->
  Int32.in_range v ->
  AtomicCounter.quiescent os (AtomicCounter.construct os)
  /\ AtomicCounter.quiescent os (AtomicCounter.construct_init os v)
  /\ (exists b, AtomicCounter.construct_copy os other = Returned (b, other)
                /\ AtomicCounter.quiescent os b)
  /\ completes os (AtomicCounter.assign os v c)
  /\ (exists c', AtomicCounter.assign_copy os other c = Returned (c', other)
                 /\ AtomicCounter.quiescent os c')
  /\ completes os (AtomicCounter.value os c)
  /\ completes os (AtomicCounter.operator_ValueType os c)
  /\ completes os (AtomicCounter.operator_inc_prefix os c)
  /\ completes os (AtomicCounter.operator_inc_postfix os c)
  /\ completes os (AtomicCounter.operator_dec_prefix os c)
  /\ completes os (AtomicCounter.operator_dec_postfix os c)
  /\ completes os (AtomicCounter.operator_not os c).
Proof.
  intros [Hc Hu] [Ho Huo] Hv.
  split; [ apply construct_init_quiescent; split; vm_compute; discriminate | ].
  split; [ apply construct_init_quiescent; exact Hv | ].
  split.
  { eexists. split; [ apply construct_copy_returns; exact Huo | ].
    apply construct_init_quiescent; exact Ho. }
  split.
  { destruct (assign_returns os c v Hu) as (c' & E & Hs & Hu').
    exact (completes_intro os _ _ _ _ E Hs Hu' Hv). }
  split.
  { destruct (assign_copy_returns os other c Huo Hu) as (c' & E & Hs & Hu').
    exists c'. split; [ exact E | ]. split; [ rewrite Hs; exact Ho | exact Hu' ]. }
  split.
  { exact (completes_intro os _ _ _ _ (value_returns os c Hu) eq_refl Hu Hc). }
  split.
  { exact (completes_intro os _ _ _ _ (operator_ValueType_returns os c Hu) eq_refl Hu Hc). }
  split.
  { destruct (operator_inc_prefix_returns os c Hu) as (c' & E & Hs & Hu').
    exact (completes_intro os _ _ _ _ E Hs Hu' (add_in_range _ _)). }
  split.
  { destruct (operator_inc_postfix_returns os c Hu) as (c' & E & Hs & Hu').
    exact (completes_intro os _ _ _ _ E Hs Hu' (add_in_range _ _)). }
  split.
  { destruct (operator_dec_prefix_returns os c Hu) as (c' & E & Hs & Hu').
    exact (completes_intro os _ _ _ _ E Hs Hu' (sub_in_range _ _)). }
  split.
  { destruct (operator_dec_postfix_returns os c Hu) as (c' & E & Hs & Hu').
    exact (completes_intro os _ _ _ _ E Hs Hu' (sub_in_range _ _)). }
  exact (completes_intro os _ _ _ _ (operator_not_returns os c Hu) eq_refl Hu Hc).
Qed.

Lemma operations_complete_witness :
  completes POCO_OS_OTHER
    (AtomicCounter.operator_inc_postfix POCO_OS_OTHER
       (Generic.mkImpl false Int32.max_signed))
  /\ completes POCO_OS_OTHER
       (AtomicCounter.assign POCO_OS_OTHER Int32.min_signed
          (Generic.mkImpl false Int32.max_signed)).
Proof.
  assert (Hq : AtomicCounter.quiescent POCO_OS_OTHER
                 (Generic.mkImpl false Int32.max_signed)).
  { split; [ split; vm_compute; discriminate | reflexivity ]. }
  assert (Hv : Int32.in_range Int32.min_signed)
    by (split; vm_compute; discriminate).
  pose proof (operations_complete POCO_OS_OTHER _ _ _ Hq Hq Hv) as H.
  split; [ apply H | apply H ].
Defined.

(** ** Reading *)

(** The two read accessors have the same body under every strategy, so they
    agree on every counter, blocked or not. *)
Lemma value_eq_operator_ValueType (os : POCO_OS) (c : AtomicCounter.ImplType os) :
  AtomicCounter.value os c = AtomicCounter.operator_ValueType os c.
Proof. destruct os; reflexivity. Qed.

(** C9: [value()] and the conversion operator to [ValueType] are
    equivalent: on every counter between calls both return the counter's
    current value, hence the same value, and both leave the counter as it
    was. *)
Theorem value_equiv_conversion (os : POCO_OS) (c : AtomicCounter.ImplType os) :
  AtomicCounter.unlocked os c ->
  AtomicCounter.value os c = AtomicCounter.operator_ValueType os c
  /\ AtomicCounter.value os c = Returned (AtomicCounter.stored os c, c)
  /\ AtomicCounter.operator_ValueType os c
     = Returned (AtomicCounter.stored os c, c).
Proof.
  intros Hu. split; [ apply value_eq_operator_ValueType | ].
  split; [ apply value_returns | apply operator_ValueType_returns ]; exact Hu.
Qed.

Lemma value_equiv_conversion_witness :
  AtomicCounter.value POCO_OS_OTHER (Generic.mkImpl false 42)
  = Returned (42, Generic.mkImpl false 42)
  /\ AtomicCounter.operator_ValueType POCO_OS_OTHER (Generic.mkImpl false 42)
     = Returned (42, Generic.mkImpl false 42).
Proof.
  exact (proj2 (value_equiv_conversion POCO_OS_OTHER (Generic.mkImpl false 42) eq_refl)).
Defined.

(** C10: every read-only operation ([value()], the conversion to
    [ValueType], [operator !]) returns with the counter exactly as it was
    before the call, stored value and lock alike. *)
Theorem read_only_unchanged (os : POCO_OS) (c : AtomicCounter.ImplType os) :
  AtomicCounter.unlocked os c ->
  (exists r, AtomicCounter.value os c = Returned (r, c))
  /\ (exists r, AtomicCounter.operator_ValueType os c = Returned (r, c))
  /\ (exists b, AtomicCounter.operator_not os c = Returned (b, c)).
Proof.
  intros Hu.
  split; [ eexists; apply value_returns; exact Hu | ].
  split; [ eexists; apply operator_ValueType_returns; exact Hu | ].
  eexists; apply operator_not_returns; exact Hu.
Qed.

Lemma read_only_unchanged_witness :
  exists b,
    AtomicCounter.operator_not POCO_OS_OTHER (Generic.mkImpl false 3)
    = Returned (b, Generic.mkImpl false 3).
Proof.
  exact (proj2 (proj2 (read_only_unchanged POCO_OS_OTHER (Generic.mkImpl false 3) eq_refl))).
Defined.


(** * Further properties of the member functions *)

(** ** Pools of threads *)

Section PoolFacts.

Import Workload.

Context {Shared T : Type}.
Variable tstep : Shared -> T -> option (Shared * T).

Lemma pool_step_middle (s s' : Shared) (l1 l2 : list T) (t t' : T) :
  tstep s t = Some (s', t') ->
  pool_step tstep (length l1) (s, l1 ++ t :: l2) = (s', l1 ++ t' :: l2).
Proof.
  intros Hstep. unfold pool_step; simpl.
  rewrite list_lookup_middle by reflexivity. rewrite Hstep.
  f_equal. rewrite <- (Nat.add_0_r (length l1)). rewrite insert_app_r.
  reflexivity.
Qed.

Lemma pool_step_cases (i : nat) (s : Shared) (ts : list T) :
  pool_step tstep i (s, ts) = (s, ts)
  \/ exists l1 t l2 s' t',
       ts = l1 ++ t :: l2 /\ tstep s t = Some (s', t')
       /\ pool_step tstep i (s, ts) = (s', l1 ++ t' :: l2).
Proof.
  unfold pool_step; simpl.
  destruct (ts !! i) as [t|] eqn:Hi; [ | left; reflexivity ].
  destruct (tstep s t) as [[s' t']|] eqn:Hstep; [ | left; reflexivity ].
  right. exists (take i ts), t, (drop (S i) ts), s', t'.
  split; [ symmetry; apply take_drop_middle; exact Hi | ].
  split; [ exact Hstep | ].
  f_equal. apply insert_take_drop. apply lookup_lt_is_Some_1. eauto.
Qed.

Lemma pool_run_app (sched1 sched2 : list nat) (st : Shared * list T) :
  pool_run tstep (sched1 ++ sched2) st
  = pool_run tstep sched2 (pool_run tstep sched1 st).
Proof.
  revert st. induction sched1 as [|i sched1 IH]; intros st; simpl; auto.
Qed.

Section PoolInvariant.

Variable Inv : Shared -> list T -> Prop.

Hypothesis Inv_step :
  forall s l1 t l2 s' t',
    Inv s (l1 ++ t :: l2) -> tstep s t = Some (s', t') -> Inv s' (l1 ++ t' :: l2).

Lemma pool_run_invariant (sched : list nat) (st : Shared * list T) :
  Inv (fst st) (snd st) ->
  Inv (fst (pool_run tstep sched st)) (snd (pool_run tstep sched st)).
Proof.
  revert st. induction sched as [|i sched IH]; intros [s ts] H; simpl; auto.
  apply IH.
  destruct (pool_step_cases i s ts) as [E | (l1 & t & l2 & s' & t' & -> & Hs & E)];
    rewrite E; simpl in *; eauto.
Qed.

End PoolInvariant.

(** A round in which each thread of a block takes one step, in order:
    every step changes the shared state by [g] and the thread by [f], as
    long as the shared state stays within [R]. *)
Lemma pool_run_round (R : Shared -> Prop) (g : Shared -> Shared) (f : T -> T)
    (P : T -> Prop) (block : list T) :
  (forall s t, R s -> P t -> tstep s t = Some (g s, f t)) ->
  (forall s, R s -> R (g s)) ->
  Forall P block ->
  forall l1 l2 s, R s ->
    pool_run tstep (seq (length l1) (length block)) (s, l1 ++ block ++ l2)
    = (Nat.iter (length block) g s, l1 ++ map f block ++ l2)
    /\ R (Nat.iter (length block) g s).
Proof.
  intros Hstep HR. induction 1 as [|t block Ht Hblock IH]; intros l1 l2 s Hs.
  - simpl. auto.
  - cbn [length seq pool_run app map].
    rewrite (pool_step_middle s (g s) l1 (block ++ l2) t (f t)) by auto.
    rewrite (cons_middle (f t) l1), app_assoc.
    replace (S (length l1)) with (length (l1 ++ [f t]))
      by (rewrite length_app; simpl; lia).
    destruct (IH (l1 ++ [f t]) l2 (g s) (HR s Hs)) as [E HR'].
    rewrite E. rewrite <- app_assoc. cbn [app].
    rewrite Nat.iter_succ_r. auto.
Qed.

End PoolFacts.

(** ** Programs under the native strategies *)

Section NativePrograms.

Import Workload.

Lemma sumZ_app {T : Type} (f : T -> Z) (l1 l2 : list T) :
  sumZ f (l1 ++ l2) = sumZ f l1 + sumZ f l2.
Proof. induction l1; simpl; lia. Qed.

Lemma net_app (p q : list method) : net (p ++ q) = net p + net q.
Proof. induction p; simpl; lia. Qed.

Lemma add_wrap (x : Z) : Int32.add (Int32.wrap x) 1 = Int32.wrap (x + 1).
Proof. unfold Int32.add. apply wrap_add_l. Qed.

Lemma sub_wrap (x : Z) : Int32.sub (Int32.wrap x) 1 = Int32.wrap (x - 1).
Proof. unfold Int32.sub. apply wrap_sub_l. Qed.

Variables atomic_increment atomic_decrement : Z -> ValueType * Z.

Hypothesis atomic_increment_spec :
  forall x, atomic_increment x = (Int32.add x 1, Int32.add x 1).

Hypothesis atomic_decrement_spec :
  forall x, atomic_decrement x = (Int32.sub x 1, Int32.sub x 1).

Lemma native_history_step (c c' : Z) (t t' : worker native_pc) :
  native_step atomic_increment atomic_decrement c t = Some (c', t') ->
  native_history t' = native_history t.
Proof.
  unfold native_step, native_history. destruct t as [[|m r|m r] td fc]; simpl.
  - destruct td as [|m rest]; [ discriminate | ].
    rewrite atomic_increment_spec, atomic_decrement_spec.
    destruct m; intros [= <- <-]; reflexivity.
  - rewrite atomic_increment_spec, atomic_decrement_spec.
    destruct m; intros [= <- <-]; reflexivity.
  - intros [= <- <-]. simpl. rewrite <- app_assoc. reflexivity.
Qed.

Lemma native_spawn_inv (start : Z) (programs : list (list method)) :
  Int32.in_range start ->
  native_net_inv start programs start (spawn NIdle programs).
Proof.
  intros Hs. unfold native_net_inv, spawn. split.
  - assert (E : sumZ native_owed (map (fun p => mkWorker NIdle p []) programs)
                = net (concat programs)).
    { induction programs as [|p ps IH]; simpl; [ reflexivity | ].
      rewrite net_app, IH. unfold native_owed; simpl. lia. }
    rewrite E. replace (start + _ - _) with start by lia.
    symmetry. apply wrap_id. exact Hs.
  - induction programs as [|p ps IH]; simpl; [ reflexivity | ].
    rewrite IH. reflexivity.
Qed.

Lemma native_net_inv_step (start : Z) (programs : list (list method))
    (c : Z) l1 (t : worker native_pc) l2 c' t' :
  native_net_inv start programs c (l1 ++ t :: l2) ->
  native_step atomic_increment atomic_decrement c t = Some (c', t') ->
  native_net_inv start programs c' (l1 ++ t' :: l2).
Proof.
  unfold native_net_inv. intros [Hc Hh] Hstep. split.
  - rewrite sumZ_app in *. simpl in *.
    unfold native_step in Hstep. unfold native_owed at 2. unfold native_owed at 2 in Hc.
    destruct t as [[|m r|m r] td fc]; simpl in *.
    + destruct td as [|m rest]; [ discriminate | ].
      rewrite atomic_increment_spec, atomic_decrement_spec in Hstep.
      destruct m; injection Hstep as <- <-; simpl in *;
        rewrite Hc; rewrite ?add_wrap, ?sub_wrap; f_equal; lia.
    + rewrite atomic_increment_spec, atomic_decrement_spec in Hstep.
      destruct m; try discriminate; injection Hstep as <- <-; simpl in *;
        rewrite Hc; rewrite ?add_wrap, ?sub_wrap; f_equal; lia.
    + injection Hstep as <- <-; simpl in *. rewrite Hc. f_equal.
  - rewrite map_app in *. simpl in *.
    rewrite (native_history_step _ _ _ _ Hstep). exact Hh.
Qed.

Lemma native_finished_inv (ts : list (worker native_pc)) :
  finished native_idle ts = true ->
  sumZ native_owed ts = 0
  /\ map native_history ts = map (fun t => map fst (rev (finished_calls t))) ts.
Proof.
  induction ts as [|[p td fc] ts IH]; simpl; auto.
  intros H. apply andb_prop in H as [H1 H2]. apply andb_prop in H1 as [Hp Htd].
  apply bool_decide_eq_true in Htd. simpl in Htd. subst td.
  destruct p; try discriminate.
  destruct (IH H2) as [E1 E2]. rewrite E1, E2.
  unfold native_owed, native_history; simpl.
  rewrite app_nil_r, map_rev. auto.
Qed.

(** Under every schedule: when all calls have returned, the counter holds
    its start value plus the increments minus the decrements of all
    programs, and every thread has a result for each call of its program,
    in order. *)
Lemma native_programs_complete (start : Z) (programs : list (list method))
    (sched : list nat) :
  Int32.in_range start ->
  let o := observe_native
             (pool_run (native_step atomic_increment atomic_decrement) sched
                (start, spawn NIdle programs)) in
  all_done o = true ->
  final_value o = Int32.wrap (start + net (concat programs))
  /\ map (map fst) (results o) = programs.
Proof.
  simpl. intros Hs Hdone.
  pose proof (pool_run_invariant (native_step atomic_increment atomic_decrement)
                (native_net_inv start programs) (native_net_inv_step _ _)
                sched (start, spawn NIdle programs) (native_spawn_inv _ _ Hs)) as Hinv.
  destruct (pool_run _ sched _) as [c ts]; simpl in *.
  destruct (native_finished_inv ts Hdone) as [E1 E2].
  destruct Hinv as [Hc Hh]. rewrite E1, Z.sub_0_r in Hc.
  split; [ exact Hc | ].
  rewrite map_map. rewrite <- Hh, E2. reflexivity.
Qed.

End NativePrograms.

(** ** Programs under the generic strategy *)

Section GenericPrograms.

Import Workload.

Lemma generic_history_step c c' (t t' : worker generic_pc) :
  generic_step c t = Some (c', t') -> generic_history t' = generic_history t.
Proof.
  unfold generic_step, generic_history. destruct c as [locked v].
  destruct t as [[|m|m old|m r|m r] td fc]; simpl.
  - destruct td as [|m rest]; [ discriminate | ].
    unfold Generic.FastMutex_lock; simpl. destruct locked; [ discriminate | ].
    intros [= <- <-]; reflexivity.
  - destruct m; intros [= <- <-]; reflexivity.
  - destruct m; try discriminate; intros [= <- <-]; reflexivity.
  - intros [= <- <-]; reflexivity.
  - intros [= <- <-]. simpl. rewrite <- app_assoc. reflexivity.
Qed.

Lemma generic_spawn_inv (start : Z) (programs : list (list method)) :
  Int32.in_range start ->
  generic_net_inv start programs (Generic.mkImpl false start) (spawn GIdle programs).
Proof.
  intros Hs. unfold generic_net_inv, spawn. simpl.
  split; [ | split; [ | split ] ].
  - assert (E : sumZ generic_owed (map (fun p => mkWorker GIdle p []) programs)
                = net (concat programs)).
    { induction programs as [|p ps IH]; simpl; [ reflexivity | ].
      rewrite net_app, IH. unfold generic_owed; simpl. lia. }
    rewrite E. replace (start + _ - _) with start by lia.
    symmetry. apply wrap_id. exact Hs.
  - induction programs as [|p ps IH]; simpl; [ reflexivity | ].
    rewrite IH. reflexivity.
  - induction programs as [|p ps IH]; simpl; auto.
  - induction programs as [|p ps IH]; simpl; constructor; auto.
    simpl. discriminate.
Qed.

Lemma nobody_inside_none_loaded (P : Z -> Prop) (l : list (worker generic_pc)) :
  sum_list_with generic_inside l = 0%nat ->
  Forall (fun t => forall m old, at_pc t = GLoaded m old -> P old) l.
Proof.
  induction l as [|[p td fc] l IH]; simpl; intros H; constructor.
  - simpl. intros m old ->. unfold generic_inside in H; simpl in H. lia.
  - apply IH. lia.
Qed.

Lemma generic_net_inv_step (start : Z) (programs : list (list method))
    c l1 (t : worker generic_pc) l2 c' t' :
  generic_net_inv start programs c (l1 ++ t :: l2) ->
  generic_step c t = Some (c', t') ->
  generic_net_inv start programs c' (l1 ++ t' :: l2).
Proof.
  unfold generic_net_inv.
  rewrite !sumZ_app, !map_app, !sum_list_with_app, !Forall_app, !Forall_cons; simpl.
  intros (Hc & Hh & Hm & Hl1 & Ht & Hl2) Hstep.
  rewrite (generic_history_step _ _ _ _ Hstep).
  split; [ | split; [ exact Hh | ] ].
  - (* the value *)
    unfold generic_step in Hstep. unfold generic_owed at 2. unfold generic_owed at 2 in Hc.
    destruct c as [locked v]. destruct t as [[|m|m old|m r|m r] td fc]; simpl in *.
    + destruct td as [|m rest]; [ discriminate | ].
      unfold Generic.FastMutex_lock in Hstep; simpl in Hstep.
      destruct locked; [ discriminate | ].
      change (net (m :: rest)) with (delta m + net rest) in Hc.
      injection Hstep as <- <-; simpl. rewrite Hc. f_equal. lia.
    + destruct m; injection Hstep as <- <-; simpl in *; rewrite Hc; f_equal; lia.
    + specialize (Ht m old eq_refl). subst old.
      destruct m; try discriminate; injection Hstep as <- <-; simpl in *;
        rewrite Hc; rewrite ?add_wrap, ?sub_wrap; f_equal; lia.
    + injection Hstep as <- <-; simpl. exact Hc.
    + injection Hstep as <- <-; simpl. exact Hc.
  - (* the lock *)
    unfold generic_step in Hstep.
    unfold generic_inside at 2. unfold generic_inside at 2 in Hm.
    destruct c as [locked v]. destruct t as [[|m|m old|m r|m r] td fc]; simpl in *.
    + destruct td as [|m rest]; [ discriminate | ].
      unfold Generic.FastMutex_lock in Hstep; simpl in Hstep.
      destruct locked; [ discriminate | ].
      injection Hstep as <- <-; simpl.
      repeat split; auto; try lia. discriminate.
    + destruct m; injection Hstep as <- <-; simpl in *;
        repeat split; auto; try discriminate.
      all: intros m' old' [= <- <-]; reflexivity.
    + assert (H1 : sum_list_with generic_inside l1 = 0%nat) by (destruct locked; lia).
      assert (H2 : sum_list_with generic_inside l2 = 0%nat) by (destruct locked; lia).
      destruct m; try discriminate; injection Hstep as <- <-; simpl in *.
      all: split; [ exact Hm | ].
      all: split; [ apply (nobody_inside_none_loaded _ l1 H1) | ].
      all: split; [ discriminate | apply (nobody_inside_none_loaded _ l2 H2) ].
    + injection Hstep as <- <-; simpl.
      repeat split; auto; try (destruct locked; lia). discriminate.
    + injection Hstep as <- <-; simpl.
      repeat split; auto. discriminate.
Qed.

Lemma generic_finished_inv (ts : list (worker generic_pc)) :
  finished generic_idle ts = true ->
  sumZ generic_owed ts = 0
  /\ sum_list_with generic_inside ts = 0%nat
  /\ map generic_history ts = map (fun t => map fst (rev (finished_calls t))) ts.
Proof.
  induction ts as [|[p td fc] ts IH]; simpl; auto.
  intros H. apply andb_prop in H as [H1 H2]. apply andb_prop in H1 as [Hp Htd].
  apply bool_decide_eq_true in Htd. simpl in Htd. subst td.
  destruct p; try discriminate.
  destruct (IH H2) as (E1 & E2 & E3). rewrite E1, E2, E3.
  unfold generic_owed, generic_history, generic_inside; simpl.
  rewrite app_nil_r, map_rev. auto.
Qed.

Lemma generic_programs_invariant (start : Z) (programs : list (list method))
    (sched : list nat) :
  Int32.in_range start ->
  generic_net_inv start programs
    (fst (pool_run generic_step sched (Generic.mkImpl false start, spawn GIdle programs)))
    (snd (pool_run generic_step sched (Generic.mkImpl false start, spawn GIdle programs))).
Proof.
  intros Hs.
  apply (pool_run_invariant generic_step (generic_net_inv start programs)
           (generic_net_inv_step _ _) sched
           (Generic.mkImpl false start, spawn GIdle programs)
           (generic_spawn_inv _ _ Hs)).
Qed.

Lemma generic_programs_complete (start : Z) (programs : list (list method))
    (sched : list nat) :
  Int32.in_range start ->
  let o := observe_generic
             (pool_run generic_step sched
                (Generic.mkImpl false start, spawn GIdle programs)) in
  all_done o = true ->
  final_value o = Int32.wrap (start + net (concat programs))
  /\ lock_held o = false
  /\ map (map fst) (results o) = programs.
Proof.
  simpl. intros Hs Hdone.
  pose proof (generic_programs_invariant start programs sched Hs) as Hinv.
  destruct (pool_run _ sched _) as [c ts]; simpl in *.
  destruct (generic_finished_inv ts Hdone) as (E1 & E2 & E3).
  destruct Hinv as (Hc & Hh & Hm & _). rewrite E1, Z.sub_0_r in Hc.
  split; [ exact Hc | ].
  split; [ destruct (Generic._counter_mutex c); [ lia | reflexivity ] | ].
  rewrite map_map. rewrite <- Hh, E3. reflexivity.
Qed.

End GenericPrograms.

(** ** Every interleaving can be completed *)

Section PoolProgress.

Import Workload.

Context {Shared T : Type}.
Variable tstep : Shared -> T -> option (Shared * T).
Variable Inv : Shared -> list T -> Prop.
Variable fin : list T -> bool.
Variable cost : T -> nat.

Hypothesis Inv_step :
  forall s l1 t l2 s' t',
    Inv s (l1 ++ t :: l2) -> tstep s t = Some (s', t') -> Inv s' (l1 ++ t' :: l2).

Hypothesis Inv_enabled :
  forall s ts, Inv s ts -> fin ts = false ->
    exists l1 t l2 s' t', ts = l1 ++ t :: l2 /\ tstep s t = Some (s', t').

Hypothesis cost_step :
  forall s t s' t', tstep s t = Some (s', t') -> (cost t' < cost t)%nat.

Lemma pool_completable (n : nat) :
  forall s ts, (sum_list_with cost ts <= n)%nat -> Inv s ts ->
    exists sched, fin (snd (pool_run tstep sched (s, ts))) = true.
Proof.
  induction n as [|n IH]; intros s ts Hn Hinv.
  - destruct (fin ts) eqn:Hfin; [ exists []; exact Hfin | ].
    destruct (Inv_enabled s ts Hinv Hfin) as (l1 & t & l2 & s' & t' & -> & Hstep).
    apply cost_step in Hstep. rewrite sum_list_with_app in Hn. simpl in Hn. lia.
  - destruct (fin ts) eqn:Hfin; [ exists []; exact Hfin | ].
    destruct (Inv_enabled s ts Hinv Hfin) as (l1 & t & l2 & s' & t' & -> & Hstep).
    destruct (IH s' (l1 ++ t' :: l2)) as [sched Hsched].
    + apply cost_step in Hstep. rewrite sum_list_with_app in *. simpl in *. lia.
    + eapply Inv_step; eauto.
    + exists (length l1 :: sched). simpl.
      rewrite (pool_step_middle tstep s s' l1 l2 t t' Hstep). exact Hsched.
Qed.

End PoolProgress.

Section ProgramsProgress.

Import Workload.

Lemma unfinished_worker {PC : Type} (idle : PC -> bool) (ts : list (worker PC)) :
  finished idle ts = false ->
  exists l1 t l2,
    ts = l1 ++ t :: l2 /\ idle (at_pc t) && bool_decide (todo t = []) = false.
Proof.
  induction ts as [|t ts IH]; simpl; [ discriminate | ].
  destruct (idle (at_pc t) && bool_decide (todo t = [])) eqn:E; simpl.
  - intros H. destruct (IH H) as (l1 & t0 & l2 & -> & Ht0).
    exists (t :: l1), t0, l2. auto.
  - intros _. exists [], t, ts. auto.
Qed.

Lemma worker_inside (ts : list (worker generic_pc)) :
  sum_list_with generic_inside ts <> 0%nat ->
  exists l1 t l2, ts = l1 ++ t :: l2 /\ generic_inside t = 1%nat.
Proof.
  induction ts as [|t ts IH]; simpl; [ congruence | ].
  destruct (generic_inside t) as [|[|n]] eqn:E; simpl.
  - intros H. destruct (IH H) as (l1 & t0 & l2 & -> & Ht0).
    exists (t :: l1), t0, l2. auto.
  - intros _. exists [], t, ts. auto.
  - unfold generic_inside in E. destruct (at_pc t); discriminate.
Qed.

Variables atomic_increment atomic_decrement : Z -> ValueType * Z.

Lemma native_placed_step (c c' : Z) (t t' : worker native_pc) :
  native_step atomic_increment atomic_decrement c t = Some (c', t') ->
  native_placed t'.
Proof.
  unfold native_step, native_placed. destruct t as [[|m r|m r] td fc]; simpl.
  - destruct td as [|m rest]; [ discriminate | ].
    destruct (atomic_increment c), (atomic_decrement c).
    destruct m; intros [= <- <-]; simpl; auto.
  - destruct (atomic_increment c), (atomic_decrement c).
    destruct m; intros [= <- <-]; simpl; auto.
  - intros [= <- <-]; simpl; auto.
Qed.

Lemma native_placed_inv_step (c : Z) l1 (t : worker native_pc) l2 c' t' :
  Forall native_placed (l1 ++ t :: l2) ->
  native_step atomic_increment atomic_decrement c t = Some (c', t') ->
  Forall native_placed (l1 ++ t' :: l2).
Proof.
  rewrite !Forall_app, !Forall_cons. intros (H1 & _ & H2) Hstep.
  eauto using native_placed_step.
Qed.

Lemma native_enabled_placed (c : Z) (ts : list (worker native_pc)) :
  Forall native_placed ts ->
  finished native_idle ts = false ->
  exists l1 t l2 c' t',
    ts = l1 ++ t :: l2
    /\ native_step atomic_increment atomic_decrement c t = Some (c', t').
Proof.
  intros Hp H. destruct (unfinished_worker _ _ H) as (l1 & t & l2 & -> & Ht).
  apply Forall_app in Hp as [_ Hp]. apply Forall_cons in Hp as [Hp _].
  exists l1, t, l2. unfold native_step, native_placed in *.
  destruct t as [[|m r|m r] td fc]; simpl in *.
  - destruct td as [|m rest]; [ discriminate | ].
    destruct (atomic_increment c), (atomic_decrement c). destruct m; eauto.
  - destruct (atomic_increment c), (atomic_decrement c).
    destruct Hp as [-> | ->]; eauto.
  - eauto.
Qed.

Lemma native_cost_step (c c' : Z) (t t' : worker native_pc) :
  native_step atomic_increment atomic_decrement c t = Some (c', t') ->
  (native_cost t' < native_cost t)%nat.
Proof.
  unfold native_step, native_cost. destruct t as [[|m r|m r] td fc]; simpl.
  - destruct td as [|m rest]; [ discriminate | ].
    destruct (atomic_increment c), (atomic_decrement c).
    destruct m; intros [= <- <-]; simpl; lia.
  - destruct (atomic_increment c), (atomic_decrement c).
    destruct m; intros [= <- <-]; simpl; lia.
  - intros [= <- <-]; simpl; lia.
Qed.

Lemma native_spawn_placed (programs : list (list method)) :
  Forall native_placed (spawn NIdle programs).
Proof. induction programs; simpl; constructor; simpl; auto. exact I. Qed.

(** Under the native strategies every run can be continued to the point
    where all calls have returned. *)
Lemma native_completable (start : Z) (programs : list (list method))
    (sched : list nat) :
  exists more,
    finished native_idle
      (snd (pool_run (native_step atomic_increment atomic_decrement)
              (sched ++ more) (start, spawn NIdle programs))) = true.
Proof.
  pose proof (pool_run_invariant (native_step atomic_increment atomic_decrement)
                (fun _ ts => Forall native_placed ts)
                (fun s l1 t l2 s' t' H Hs => native_placed_inv_step s l1 t l2 s' t' H Hs)
                sched (start, spawn NIdle programs) (native_spawn_placed programs))
    as Hinv.
  destruct (pool_run _ sched (start, spawn NIdle programs)) as [c ts] eqn:E.
  simpl in Hinv.
  destruct (pool_completable (native_step atomic_increment atomic_decrement)
              (fun _ ts => Forall native_placed ts) (finished native_idle) native_cost
              (fun s l1 t l2 s' t' H Hs => native_placed_inv_step s l1 t l2 s' t' H Hs)
              (fun s ts H Hf => native_enabled_placed s ts H Hf)
              (fun s t s' t' Hs => native_cost_step s s' t t' Hs)
              _ c ts (le_n _) Hinv) as [more Hmore].
  exists more. rewrite pool_run_app, E. exact Hmore.
Qed.

End ProgramsProgress.

Section GenericProgress.

Import Workload.

Lemma generic_placed_step c c' (t t' : worker generic_pc) :
  generic_step c t = Some (c', t') -> generic_placed t'.
Proof.
  unfold generic_step, generic_placed. destruct c as [locked v].
  destruct t as [[|m|m old|m r|m r] td fc]; simpl.
  - destruct td as [|m rest]; [ discriminate | ].
    unfold Generic.FastMutex_lock; simpl. destruct locked; [ discriminate | ].
    intros [= <- <-]; simpl; auto.
  - destruct m; intros [= <- <-]; simpl; auto; discriminate.
  - destruct m; try discriminate; intros [= <- <-]; simpl; auto.
  - intros [= <- <-]; simpl; auto.
  - intros [= <- <-]; simpl; auto.
Qed.

Lemma generic_cost_step c c' (t t' : worker generic_pc) :
  generic_step c t = Some (c', t') -> (generic_cost t' < generic_cost t)%nat.
Proof.
  unfold generic_step, generic_cost. destruct c as [locked v].
  destruct t as [[|m|m old|m r|m r] td fc]; simpl.
  - destruct td as [|m rest]; [ discriminate | ].
    unfold Generic.FastMutex_lock; simpl. destruct locked; [ discriminate | ].
    intros [= <- <-]; simpl. destruct m; simpl; lia.
  - destruct m; intros [= <- <-]; simpl; lia.
  - destruct m; try discriminate; intros [= <- <-]; simpl; lia.
  - intros [= <- <-]; simpl; lia.
  - intros [= <- <-]; simpl; lia.
Qed.

(** The invariant under which a pool is never stuck. *)
Lemma generic_live_step (start : Z) (programs : list (list method))
    c l1 (t : worker generic_pc) l2 c' t' :
  generic_net_inv start programs c (l1 ++ t :: l2)
  /\ Forall generic_placed (l1 ++ t :: l2) ->
  generic_step c t = Some (c', t') ->
  generic_net_inv start programs c' (l1 ++ t' :: l2)
  /\ Forall generic_placed (l1 ++ t' :: l2).
Proof.
  intros [Hinv Hp] Hstep. split; [ eapply generic_net_inv_step; eauto | ].
  rewrite !Forall_app, !Forall_cons in *. destruct Hp as (H1 & _ & H2).
  eauto using generic_placed_step.
Qed.

(** While the mutex is held its holder can step; while it is free every
    thread with a call to make or a value to hand back can. *)
Lemma generic_live_enabled (start : Z) (programs : list (list method))
    c (ts : list (worker generic_pc)) :
  generic_net_inv start programs c ts /\ Forall generic_placed ts ->
  finished generic_idle ts = false ->
  exists l1 t l2 c' t', ts = l1 ++ t :: l2 /\ generic_step c t = Some (c', t').
Proof.
  intros [(_ & _ & Hm & _) Hp] H. destruct c as [[|] v]; simpl in Hm.
  - destruct (worker_inside ts) as (l1 & t & l2 & -> & Ht); [ lia | ].
    apply Forall_app in Hp as [_ Hp]. apply Forall_cons in Hp as [Hp _].
    exists l1, t, l2. unfold generic_step, generic_placed, generic_inside in *.
    destruct t as [[|m|m old|m r|m r] td fc]; simpl in *; try discriminate.
    + destruct m; eauto.
    + destruct m; simpl in Hp; try congruence; eauto.
    + eauto.
  - destruct (unfinished_worker _ _ H) as (l1 & t & l2 & -> & Ht).
    apply Forall_app in Hp as [_ Hp]. apply Forall_cons in Hp as [Hp _].
    exists l1, t, l2. unfold generic_step, generic_placed in *.
    destruct t as [[|m|m old|m r|m r] td fc]; simpl in *.
    + destruct td as [|m rest]; [ discriminate | ]. eauto.
    + destruct m; eauto.
    + destruct m; simpl in Hp; try congruence; eauto.
    + eauto.
    + eauto.
Qed.

Lemma generic_spawn_placed (programs : list (list method)) :
  Forall generic_placed (spawn GIdle programs).
Proof. induction programs; simpl; constructor; simpl; auto. exact I. Qed.

Lemma generic_completable (start : Z) (programs : list (list method))
    (sched : list nat) :
  Int32.in_range start ->
  exists more,
    finished generic_idle
      (snd (pool_run generic_step (sched ++ more)
              (Generic.mkImpl false start, spawn GIdle programs))) = true.
Proof.
  intros Hs.
  pose proof (pool_run_invariant generic_step
                (fun c ts => generic_net_inv start programs c ts
                             /\ Forall generic_placed ts)
                (generic_live_step start programs)
                sched (Generic.mkImpl false start, spawn GIdle programs)
                (conj (generic_spawn_inv _ _ Hs) (generic_spawn_placed programs)))
    as Hinv.
  destruct (pool_run _ sched (Generic.mkImpl false start, spawn GIdle programs))
    as [c ts] eqn:E.
  simpl in Hinv.
  destruct (pool_completable generic_step
              (fun c ts => generic_net_inv start programs c ts
                           /\ Forall generic_placed ts)
              (finished generic_idle) generic_cost
              (generic_live_step start programs)
              (generic_live_enabled start programs)
              (fun s t s' t' Hs => generic_cost_step s s' t t' Hs)
              _ c ts (le_n _) Hinv) as [more Hmore].
  exists more. rewrite pool_run_app, E. exact Hmore.
Qed.

End GenericProgress.

(** ** Any mix of calls, any interleaving *)

(** X1: whatever member functions the threads call and however their steps
    interleave: once all calls have returned, the counter holds its start
    value plus the number of increments minus the number of decrements made
    (as a 32-bit [int]), the lock is free, and each thread has one result
    per call of its program, in the order of the calls. *)
Theorem programs_no_lost_update (os : POCO_OS) (start : Z)
    (programs : list (list Workload.method)) (sched : list nat) :
  Int32.in_range start ->
  Workload.all_done (Workload.execute os start programs sched) = true ->
  Workload.final_value (Workload.execute os start programs sched)
  = Int32.wrap (start + Workload.net (concat programs))
  /\ Workload.lock_held (Workload.execute os start programs sched) = false
  /\ map (map fst) (Workload.results (Workload.execute os start programs sched))
     = programs.
Proof.
  intros Hs Hdone. destruct os; unfold Workload.execute in *.
  - destruct (native_programs_complete _ _ (fun x => eq_refl) (fun x => eq_refl)
                start programs sched Hs Hdone) as [H1 H2]. auto.
  - destruct (native_programs_complete _ _ (fun x => eq_refl) (fun x => eq_refl)
                start programs sched Hs Hdone) as [H1 H2]. auto.
  - apply generic_programs_complete; assumption.
Qed.

Lemma programs_no_lost_update_witness :
  Workload.final_value
    (Workload.execute POCO_OS_OTHER 7
       [[Workload.call_inc_postfix; Workload.call_dec_prefix];
        [Workload.call_inc_prefix; Workload.call_operator_not];
        [Workload.call_dec_postfix; Workload.call_value]]
       [0; 1; 2; 2; 1; 0; 0; 1; 2; 2; 1; 0; 0; 1; 2; 2; 1; 0; 0; 1; 2; 2; 1; 0;
        0; 1; 2; 2; 1; 0; 0; 1; 2; 2; 1; 0; 0; 1; 2; 2; 1; 0; 0; 1; 2; 2; 1; 0;
        0; 1; 2; 2; 1; 0; 2; 2; 2; 2]%nat) = 7.
Proof.
  assert (Hs : Int32.in_range 7) by (split; vm_compute; discriminate).
  refine (proj1 (programs_no_lost_update POCO_OS_OTHER 7 _ _ Hs _)).
  reflexivity.
Defined.

(** X2: no interleaving gets stuck: under every strategy, after any schedule,
    there is a continuation after which all calls have returned. *)
Theorem programs_completable (os : POCO_OS) (start : Z)
    (programs : list (list Workload.method)) (sched : list nat) :
  Int32.in_range start ->
  exists more,
    Workload.all_done (Workload.execute os start programs (sched ++ more)) = true.
Proof.
  intros Hs. destruct os; unfold Workload.execute; simpl.
  - apply native_completable.
  - apply native_completable.
  - apply generic_completable. exact Hs.
Qed.

Lemma programs_completable_witness :
  exists more,
    Workload.all_done
      (Workload.execute POCO_OS_OTHER 0
         [[Workload.call_inc_postfix]; [Workload.call_dec_prefix]]
         ([0; 1; 1; 0]%nat ++ more)) = true.
Proof.
  assert (Hs : Int32.in_range 0) by (split; vm_compute; discriminate).
  exact (programs_completable POCO_OS_OTHER 0 _ [0; 1; 1; 0]%nat Hs).
Defined.

(** ** The postfix operators under the native strategies *)

Section PostfixRace.

Import Workload.

Lemma iter_wrap_add (d : Z) (n : nat) (v : Z) :
  Int32.in_range v ->
  Nat.iter n (fun c => Int32.wrap (c + d)) v = Int32.wrap (v + Z.of_nat n * d).
Proof.
  intros Hv. induction n as [|n IH].
  - simpl. rewrite Z.add_0_r. symmetry. apply wrap_id. exact Hv.
  - rewrite Nat.iter_succ, IH, wrap_add_l. f_equal. lia.
Qed.

Lemma iter_id {A : Type} (n : nat) (x : A) : Nat.iter n (fun y => y) x = x.
Proof. induction n; simpl; auto. Qed.

Lemma Forall_repeat_eq {A : Type} (x : A) (n : nat) :
  Forall (fun y => y = x) (repeat x n).
Proof. induction n; simpl; constructor; auto. Qed.

Lemma map_repeat_eq {A B : Type} (f : A -> B) (x : A) (n : nat) :
  map f (repeat x n) = repeat (f x) n.
Proof. induction n; simpl; f_equal; auto. Qed.

Variables atomic_increment atomic_decrement : Z -> ValueType * Z.

Hypothesis atomic_increment_spec :
  forall x, atomic_increment x = (Int32.add x 1, Int32.add x 1).

Hypothesis atomic_decrement_spec :
  forall x, atomic_decrement x = (Int32.sub x 1, Int32.sub x 1).

(** One round of a block of identical threads. *)
Lemma native_round (R : Z -> Prop) (g : Z -> Z) (t t' : worker native_pc)
    (n : nat) (c : Z) :
  (forall s, R s ->
     native_step atomic_increment atomic_decrement s t = Some (g s, t')) ->
  (forall s, R s -> R (g s)) ->
  R c ->
  pool_run (native_step atomic_increment atomic_decrement) (seq 0 n) (c, repeat t n)
  = (Nat.iter n g c, repeat t' n)
  /\ R (Nat.iter n g c).
Proof.
  intros Hstep HR Hc.
  destruct (pool_run_round (native_step atomic_increment atomic_decrement)
              R g (fun _ => t') (fun y => y = t) (repeat t n)
              (fun s y Hs Hy => eq_ind_r (fun y => _ s y = _) (Hstep s Hs) Hy)
              HR (Forall_repeat_eq t n) [] [] c Hc) as [E HR'].
  simpl in E. rewrite !app_nil_r, repeat_length in E.
  rewrite repeat_length in HR'. rewrite map_repeat_eq in E. auto.
Qed.

(** [n] threads each make one postfix call on a counter at [v]; all take
    their copy of the counter first, then all make the interlocked call,
    then all return. *)
Lemma native_postfix_all_snapshot_first (m : method) (n : nat) (v : Z) :
  m = call_inc_postfix \/ m = call_dec_postfix ->
  pool_run (native_step atomic_increment atomic_decrement)
    (seq 0 n ++ seq 0 n ++ seq 0 n) (v, repeat (mkWorker NIdle [m] []) n)
  = (Nat.iter n (fun c => Int32.wrap (c + delta m)) v,
     repeat (mkWorker NIdle [] [(m, Int v)]) n).
Proof.
  intros Hm. rewrite !pool_run_app.
  destruct (native_round (fun s => s = v) (fun s => s)
              (mkWorker NIdle [m] []) (mkWorker (NSnapshot m v) [] []) n v)
    as [E1 _]; auto.
  { intros s ->. destruct Hm as [-> | ->]; reflexivity. }
  rewrite E1, iter_id.
  destruct (native_round (fun _ => True)
              (fun c => Int32.wrap (c + delta m))
              (mkWorker (NSnapshot m v) [] []) (mkWorker (NReturn m (Int v)) [] []) n v)
    as [E2 _]; auto.
  { intros s _. unfold native_step; simpl.
    rewrite atomic_increment_spec, atomic_decrement_spec.
    destruct Hm as [-> | ->]; reflexivity. }
  rewrite E2.
  destruct (native_round (fun _ => True) (fun s => s)
              (mkWorker (NReturn m (Int v)) [] []) (mkWorker NIdle [] [(m, Int v)]) n
              (Nat.iter n (fun c => Int32.wrap (c + delta m)) v))
    as [E3 _]; auto.
  rewrite E3, iter_id. reflexivity.
Qed.

End PostfixRace.

(** X3: under the Windows and Mac OS X strategies a postfix operator is not one
    indivisible step: whatever the number [n] of threads that each make one
    postfix call on a counter at [v], there is an interleaving in which every
    one of the calls returns [v], while the counter ends [n] higher (lower
    for [--]). *)
Theorem native_postfix_not_atomic (os : POCO_OS) (m : Workload.method)
    (n : nat) (v : Z) :
  os <> POCO_OS_OTHER ->
  m = Workload.call_inc_postfix \/ m = Workload.call_dec_postfix ->
  Int32.in_range v ->
  Workload.all_done
    (Workload.execute os v (repeat [m] n) (seq 0 n ++ seq 0 n ++ seq 0 n)) = true
  /\ Workload.results
       (Workload.execute os v (repeat [m] n) (seq 0 n ++ seq 0 n ++ seq 0 n))
     = repeat [(m, Workload.Int v)] n
  /\ Workload.final_value
       (Workload.execute os v (repeat [m] n) (seq 0 n ++ seq 0 n ++ seq 0 n))
     = Int32.wrap (v + Z.of_nat n * Workload.delta m).
Proof.
  intros Hos Hm Hv.
  assert (Hfin : forall k, Workload.finished Workload.native_idle
                   (repeat (Workload.mkWorker Workload.NIdle [] [(m, Workload.Int v)]) k)
                 = true)
    by (induction k; simpl; auto).
  destruct os; try congruence; unfold Workload.execute, Workload.spawn;
    rewrite map_repeat_eq.
  - rewrite (native_postfix_all_snapshot_first
               Windows.InterlockedIncrement Windows.InterlockedDecrement
               (fun x => eq_refl) (fun x => eq_refl) m n v Hm).
    unfold Workload.observe_native; simpl.
    rewrite map_repeat_eq, iter_wrap_add by exact Hv; simpl; auto.
  - rewrite (native_postfix_all_snapshot_first
               MacOSX.OSAtomicIncrement32 MacOSX.OSAtomicDecrement32
               (fun x => eq_refl) (fun x => eq_refl) m n v Hm).
    unfold Workload.observe_native; simpl.
    rewrite map_repeat_eq, iter_wrap_add by exact Hv; simpl; auto.
Qed.

Lemma native_postfix_not_atomic_witness :
  Workload.results
    (Workload.execute POCO_OS_WINDOWS_NT 0
       [[Workload.call_inc_postfix]; [Workload.call_inc_postfix]]
       [0; 1; 0; 1; 0; 1]%nat)
  = [[(Workload.call_inc_postfix, Workload.Int 0)];
     [(Workload.call_inc_postfix, Workload.Int 0)]]
  /\ Workload.final_value
       (Workload.execute POCO_OS_WINDOWS_NT 0
          [[Workload.call_inc_postfix]; [Workload.call_inc_postfix]]
          [0; 1; 0; 1; 0; 1]%nat) = 2.
Proof.
  assert (Hos : POCO_OS_WINDOWS_NT <> POCO_OS_OTHER) by discriminate.
  assert (Hv : Int32.in_range 0) by (split; vm_compute; discriminate).
  exact (proj2 (native_postfix_not_atomic POCO_OS_WINDOWS_NT
                  Workload.call_inc_postfix 2 0 Hos (or_introl eq_refl) Hv)).
Defined.

(** ** Calls that move the counter get a value each *)

Section Numbering.

Import Workload.

Lemma sumZ_cons {T : Type} (f : T -> Z) (t : T) (l : list T) :
  sumZ f (t :: l) = f t + sumZ f l.
Proof. reflexivity. Qed.

Lemma numbered_S (d start : Z) (n : nat) :
  numbered d start (S n)
  = numbered d start n ++ [Int32.wrap (start + d * Z.of_nat (S n))].
Proof. unfold numbered. rewrite seq_S, map_app. reflexivity. Qed.

Lemma numbered_NoDup (d start : Z) (n : nat) :
  d = 1 \/ d = -1 ->
  Z.of_nat n <= Int32.modulus -> NoDup (numbered d start n).
Proof.
  intros Hd Hn. unfold numbered.
  apply (NoDup_fmap_2_strong (fun k => Int32.wrap (start + d * Z.of_nat k)));
    [ | apply NoDup_seq ].
  intros a b Ha Hb E. apply list_elem_of_In, in_seq in Ha, Hb.
  apply Nat2Z.inj. revert E. destruct Hd as [-> | ->]; int32_solve.
Qed.

Lemma net_moves (d : Z) (program : list method) :
  d = 1 \/ d = -1 ->
  one_way d program -> net program = d * Z.of_nat (moves d program).
Proof.
  unfold one_way, moves. intros Hd.
  induction 1 as [|m p Hm Hp IH]; simpl; [ lia | ].
  change (net (m :: p)) with (delta m + net p). rewrite IH.
  destruct Hd as [-> | ->]; destruct m; simpl in *; lia.
Qed.

Lemma one_way_concat (d : Z) (programs : list (list method)) :
  Forall (one_way d) programs -> one_way d (concat programs).
Proof.
  unfold one_way. induction 1; simpl; [ constructor | ].
  apply Forall_app; auto.
Qed.

Lemma generic_spawn_numbering (d start : Z) (programs : list (list method)) :
  generic_numbering_inv d start programs (spawn GIdle programs).
Proof.
  unfold generic_numbering_inv, spawn.
  assert (E2 : sumZ generic_owed (map (fun p => mkWorker GIdle p []) programs)
               = net (concat programs)).
  { induction programs as [|p ps IH]; simpl; [ reflexivity | ].
    rewrite net_app, IH. unfold generic_owed; simpl. lia. }
  assert (E1 : concat (map (fun t => omap (issued d) (generic_resulted t))
                         (map (fun p => mkWorker GIdle p []) programs)) = []).
  { clear E2. induction programs; simpl; auto. }
  rewrite E1, E2. simpl. split; [ lia | reflexivity ].
Qed.

Lemma native_spawn_numbering (d start : Z) (programs : list (list method)) :
  native_numbering_inv d start programs (spawn NIdle programs).
Proof.
  unfold native_numbering_inv, spawn.
  assert (E2 : sumZ native_owed (map (fun p => mkWorker NIdle p []) programs)
               = net (concat programs)).
  { induction programs as [|p ps IH]; simpl; [ reflexivity | ].
    rewrite net_app, IH. unfold native_owed; simpl. lia. }
  assert (E1 : concat (map (fun t => omap (issued d) (native_resulted t))
                         (map (fun p => mkWorker NIdle p []) programs)) = []).
  { clear E2. induction programs; simpl; auto. }
  rewrite E1, E2. simpl. split; [ lia | reflexivity ].
Qed.

(** A call that moved the counter: its value is the next one. *)
Lemma handed_next (d start : Z) (A X B : list Z) (v z : Z) (owed : Z) (total : Z) :
  d = 1 \/ d = -1 ->
  Z.of_nat (length (A ++ X ++ B)) * d = total - owed ->
  A ++ X ++ B ≡ₚ numbered d start (length (A ++ X ++ B)) ->
  v = Int32.wrap (start + total - owed) ->
  z = Int32.wrap (v + d) ->
  Z.of_nat (length (A ++ (z :: X) ++ B)) * d = total - (owed - d)
  /\ A ++ (z :: X) ++ B ≡ₚ numbered d start (length (A ++ (z :: X) ++ B)).
Proof.
  intros Hd Hn Hp Hv Hz.
  assert (El : length (A ++ (z :: X) ++ B) = S (length (A ++ X ++ B))).
  { rewrite !length_app. simpl. lia. }
  rewrite El. split; [ destruct Hd as [-> | ->]; lia | ].
  rewrite numbered_S, <- Hp. simpl.
  rewrite <- Permutation_middle, <- Permutation_cons_append.
  apply Permutation_cons; [ | reflexivity ].
  subst z v. rewrite wrap_add_l. f_equal. destruct Hd as [-> | ->]; lia.
Qed.

Lemma generic_numbering_step (d start : Z) (programs : list (list method))
    c l1 (t : worker generic_pc) l2 c' t' :
  d = 1 \/ d = -1 ->
  Forall (one_way d) programs ->
  generic_net_inv start programs c (l1 ++ t :: l2) ->
  generic_numbering_inv d start programs (l1 ++ t :: l2) ->
  generic_step c t = Some (c', t') ->
  generic_numbering_inv d start programs (l1 ++ t' :: l2).
Proof.
  intros Hd Hnd (Hc & Hh & _ & Hl) [Hn Hp] Hstep.
  assert (Hm : one_way d (generic_history t)).
  { rewrite <- Hh in Hnd. rewrite map_app in Hnd.
    apply Forall_app in Hnd as [_ Hnd]. simpl in Hnd.
    apply Forall_cons in Hnd as [Hnd _]. exact Hnd. }
  apply Forall_app in Hl as [_ Hl]. apply Forall_cons in Hl as [Ht _].
  clear Hh Hnd.
  unfold generic_numbering_inv in *. cbv zeta in Hn, Hp.
  rewrite !sumZ_app, !map_app, !concat_app in *.
  rewrite ?map_cons, ?concat_cons, ?sumZ_cons in *.
  set (A := concat (map (fun t => omap (issued d) (generic_resulted t)) l1)) in *.
  set (B := concat (map (fun t => omap (issued d) (generic_resulted t)) l2)) in *.
  set (O1 := sumZ generic_owed l1) in *. set (O2 := sumZ generic_owed l2) in *.
  unfold generic_step in Hstep.
  unfold generic_owed, generic_resulted, generic_history, one_way in *.
  destruct c as [locked v]. destruct t as [[|m|m old|m r|m r] td fc];
    cbn [at_pc todo finished_calls Generic._counter_value] in *.
  - destruct td as [|m rest]; [ discriminate | ].
    unfold Generic.FastMutex_lock in Hstep; simpl in Hstep.
    destruct locked; [ discriminate | ].
    change (net (m :: rest)) with (delta m + net rest) in Hn.
    injection Hstep as <- <-; cbn [at_pc todo finished_calls].
    split; [ rewrite Hn; lia | exact Hp ].
  - apply Forall_app in Hm as [_ Hm]. apply Forall_cons in Hm as [Hm _].
    destruct m; injection Hstep as <- <-; cbn [at_pc todo finished_calls].
    all: try (split; [ exact Hn | exact Hp ]).
    all: destruct Hd as [-> | ->]; (split; [ exact Hn | exact Hp ]).
  - specialize (Ht m old eq_refl). subst old.
    apply Forall_app in Hm as [_ Hm]. apply Forall_cons in Hm as [Hm _].
    assert (E : exists r, Some (c', t') = Some (Generic.mkImpl locked (Int32.wrap (v + d)),
                  mkWorker (GBody m (Int r)) td fc)
                /\ issued d (m, Int r) = Some (Int32.wrap (v + d))
                /\ delta m = d).
    { destruct m; try discriminate; rewrite <- Hstep;
        destruct Hd as [-> | ->]; simpl in Hm;
        try (exfalso; destruct Hm; congruence);
        eexists; repeat split. }
    destruct E as (r & [= -> ->] & Hi & Hdm). cbn [at_pc todo finished_calls].
    change (omap (issued d) ((m, Int r) :: fc))
      with (match issued d (m, Int r) with
            | Some y => y :: omap (issued d) fc
            | None => omap (issued d) fc
            end).
    rewrite Hi. rewrite Hdm in Hn.
    destruct (handed_next d start A (omap (issued d) fc) B v (Int32.wrap (v + d))
                (O1 + (net td + d + O2)) (net (concat programs)) Hd Hn Hp)
      as [Hn' Hp']; [ rewrite Hc; f_equal; lia | reflexivity | ].
    split; [ rewrite Hn'; lia | exact Hp' ].
  - injection Hstep as <- <-; cbn [at_pc todo finished_calls]. auto.
  - injection Hstep as <- <-; cbn [at_pc todo finished_calls]. auto.
Qed.

Lemma generic_finished_issued (d : Z) (ts : list (worker generic_pc)) :
  finished generic_idle ts = true ->
  omap (issued d) (concat (map (fun t => rev (finished_calls t)) ts))
  ≡ₚ concat (map (fun t => omap (issued d) (generic_resulted t)) ts).
Proof.
  induction ts as [|[p td fc] ts IH]; simpl; [ reflexivity | ].
  intros H. apply andb_prop in H as [H1 H2]. apply andb_prop in H1 as [Hp _].
  destruct p; try discriminate. unfold generic_resulted at 1; simpl.
  rewrite omap_app, (IH H2). apply Permutation_app_tail.
  rewrite <- Permutation_rev. reflexivity.
Qed.

Lemma generic_numbering_invariant (d start : Z) (programs : list (list method))
    (sched : list nat) :
  d = 1 \/ d = -1 ->
  Int32.in_range start ->
  Forall (one_way d) programs ->
  generic_numbering_inv d start programs
    (snd (pool_run generic_step sched (Generic.mkImpl false start, spawn GIdle programs))).
Proof.
  intros Hd Hs Hnd.
  pose proof (pool_run_invariant generic_step
                (fun c ts => generic_net_inv start programs c ts
                             /\ generic_numbering_inv d start programs ts)) as H.
  apply H.
  - intros s l1 t l2 s' t' [H1 H2] Hstep.
    split; [ eapply generic_net_inv_step; eauto | ].
    eapply generic_numbering_step; eauto.
  - split; [ apply generic_spawn_inv; exact Hs | apply generic_spawn_numbering ].
Qed.

End Numbering.

Section NativeNumbering.

Import Workload.

Variables atomic_increment atomic_decrement : Z -> ValueType * Z.

Hypothesis atomic_increment_spec :
  forall x, atomic_increment x = (Int32.add x 1, Int32.add x 1).

Hypothesis atomic_decrement_spec :
  forall x, atomic_decrement x = (Int32.sub x 1, Int32.sub x 1).

Lemma native_numbering_step (d start : Z) (programs : list (list method))
    (c : Z) l1 (t : worker native_pc) l2 c' t' :
  d = 1 \/ d = -1 ->
  Forall (one_way d) programs ->
  Forall no_postfix programs ->
  native_net_inv start programs c (l1 ++ t :: l2) ->
  native_numbering_inv d start programs (l1 ++ t :: l2) ->
  native_step atomic_increment atomic_decrement c t = Some (c', t') ->
  native_numbering_inv d start programs (l1 ++ t' :: l2).
Proof.
  intros Hd Hnd Hnp (Hc & Hh) [Hn Hp] Hstep.
  assert (Hm : one_way d (native_history t) /\ no_postfix (native_history t)).
  { rewrite <- Hh in Hnd, Hnp. rewrite map_app in Hnd, Hnp.
    apply Forall_app in Hnd as [_ Hnd]. apply Forall_app in Hnp as [_ Hnp].
    simpl in Hnd, Hnp.
    apply Forall_cons in Hnd as [Hnd _]. apply Forall_cons in Hnp as [Hnp _].
    auto. }
  destruct Hm as [Hm Hq]. clear Hh Hnd Hnp.
  unfold native_numbering_inv in *. cbv zeta in Hn, Hp.
  rewrite !sumZ_app, !map_app, !concat_app in *.
  rewrite ?map_cons, ?concat_cons, ?sumZ_cons in *.
  set (A := concat (map (fun t => omap (issued d) (native_resulted t)) l1)) in *.
  set (B := concat (map (fun t => omap (issued d) (native_resulted t)) l2)) in *.
  set (O1 := sumZ native_owed l1) in *. set (O2 := sumZ native_owed l2) in *.
  unfold native_step in Hstep.
  rewrite atomic_increment_spec, atomic_decrement_spec in Hstep.
  unfold native_owed, native_resulted, native_history, one_way, no_postfix in *.
  destruct t as [[|m r|m r] td fc]; cbn [at_pc todo finished_calls] in *.
  - destruct td as [|m rest]; [ discriminate | ].
    apply Forall_app in Hm as [_ Hm]. apply Forall_cons in Hm as [Hm _].
    apply Forall_app in Hq as [_ Hq]. apply Forall_cons in Hq as [[Hq1 Hq2] _].
    change (net (m :: rest)) with (delta m + net rest) in Hn, Hc.
    assert (E : (exists r, Some (c', t') = Some (c, mkWorker (NReturn m r) rest fc)
                           /\ issued d (m, r) = None /\ delta m = 0)
                \/ (Some (c', t')
                    = Some (Int32.wrap (c + d),
                            mkWorker (NReturn m (Int (Int32.wrap (c + d)))) rest fc)
                    /\ issued d (m, Int (Int32.wrap (c + d)))
                       = Some (Int32.wrap (c + d))
                    /\ delta m = d)).
    { destruct m; try congruence; rewrite <- Hstep;
        destruct Hd as [-> | ->]; simpl in Hm;
        try (exfalso; destruct Hm; congruence);
        first [ solve [ left; eexists; repeat split ]
              | solve [ right; repeat split ] ]. }
    destruct E as [(r & [= -> ->] & Hi & Hdm) | ([= -> ->] & Hi & Hdm)];
      cbn [at_pc todo finished_calls].
    + change (omap (issued d) ((m, r) :: fc))
        with (match issued d (m, r) with
              | Some y => y :: omap (issued d) fc
              | None => omap (issued d) fc
              end).
      rewrite Hi. rewrite Hdm in Hn. split; [ rewrite Hn; lia | exact Hp ].
    + change (omap (issued d) ((m, Int (Int32.wrap (c + d))) :: fc))
        with (match issued d (m, Int (Int32.wrap (c + d))) with
              | Some y => y :: omap (issued d) fc
              | None => omap (issued d) fc
              end).
      rewrite Hi. rewrite Hdm in Hn, Hc.
      destruct (handed_next d start A (omap (issued d) fc) B c (Int32.wrap (c + d))
                  (O1 + (d + net rest + 0 + O2)) (net (concat programs)) Hd Hn Hp)
        as [Hn' Hp']; [ exact Hc | reflexivity | ].
      split; [ rewrite Hn'; lia | exact Hp' ].
  - apply Forall_app in Hq as [_ Hq]. apply Forall_cons in Hq as [[Hq1 Hq2] _].
    destruct m; try discriminate; congruence.
  - injection Hstep as <- <-; cbn [at_pc todo finished_calls]. auto.
Qed.

Lemma native_finished_issued (d : Z) (ts : list (worker native_pc)) :
  finished native_idle ts = true ->
  omap (issued d) (concat (map (fun t => rev (finished_calls t)) ts))
  ≡ₚ concat (map (fun t => omap (issued d) (native_resulted t)) ts).
Proof.
  induction ts as [|[p td fc] ts IH]; simpl; [ reflexivity | ].
  intros H. apply andb_prop in H as [H1 H2]. apply andb_prop in H1 as [Hp _].
  destruct p; try discriminate. unfold native_resulted at 1; simpl.
  rewrite omap_app, (IH H2). apply Permutation_app_tail.
  rewrite <- Permutation_rev. reflexivity.
Qed.

Lemma native_numbering_invariant (d start : Z) (programs : list (list method))
    (sched : list nat) :
  d = 1 \/ d = -1 ->
  Int32.in_range start ->
  Forall (one_way d) programs ->
  Forall no_postfix programs ->
  native_numbering_inv d start programs
    (snd (pool_run (native_step atomic_increment atomic_decrement) sched
            (start, spawn NIdle programs))).
Proof.
  intros Hd Hs Hnd Hnp.
  pose proof (pool_run_invariant (native_step atomic_increment atomic_decrement)
                (fun c ts => native_net_inv start programs c ts
                             /\ native_numbering_inv d start programs ts)) as H.
  apply H.
  - intros s l1 t l2 s' t' [H1 H2] Hstep.
    split; [ eapply native_net_inv_step; eauto | ].
    eapply native_numbering_step; eauto.
  - split; [ apply native_spawn_inv; exact Hs | apply native_spawn_numbering ].
Qed.

Lemma native_calls_numbered (d start : Z) (programs : list (list method))
    (sched : list nat) :
  d = 1 \/ d = -1 ->
  Int32.in_range start ->
  Forall (one_way d) programs ->
  Forall no_postfix programs ->
  let o := observe_native
             (pool_run (native_step atomic_increment atomic_decrement) sched
                (start, spawn NIdle programs)) in
  all_done o = true ->
  omap (issued d) (concat (results o))
  ≡ₚ numbered d start (moves d (concat programs)).
Proof.
  intros Hd Hs Hnd Hnp. simpl. intros Hdone.
  pose proof (native_numbering_invariant d start programs sched Hd Hs Hnd Hnp)
    as [Hn Hp].
  destruct (pool_run _ sched _) as [c ts]; simpl in *.
  destruct (native_finished_inv ts Hdone) as (E1 & _).
  rewrite E1, Z.sub_0_r, (net_moves d _ Hd (one_way_concat _ _ Hnd)) in Hn.
  assert (El : length (concat (map (fun t => omap (issued d) (native_resulted t)) ts))
               = moves d (concat programs))
    by (destruct Hd as [-> | ->]; lia).
  rewrite El in Hp. rewrite (native_finished_issued d ts Hdone). exact Hp.
Qed.

End NativeNumbering.

Section Released.

(** Counting down from [n]: exactly one of the values reached is 0. *)
Lemma one_zero_counting_down (n k : nat) :
  (k <= n)%nat -> Z.of_nat n <= Int32.max_signed ->
  length (filter (fun z => z = 0) (numbered (-1) (Z.of_nat n) k))
  = (if Nat.eqb k n then if Nat.eqb n 0 then 0 else 1 else 0)%nat.
Proof.
  intros Hk Hn. induction k as [|k IH].
  - simpl. destruct n; reflexivity.
  - rewrite numbered_S, filter_app, length_app, IH by lia.
    replace (Nat.eqb k n) with false by (symmetry; apply Nat.eqb_neq; lia).
    rewrite wrap_id by (int32_unfold; lia).
    simpl. destruct (Nat.eqb_spec k n) as [E | E].
    + lia.
    + destruct n as [|n]; [ lia | ].
      destruct (Nat.eqb_spec k n) as [-> | E'].
      * rewrite filter_cons_True by lia. reflexivity.
      * rewrite filter_cons_False by lia. reflexivity.
Qed.

End Released.

Lemma generic_calls_numbered (d start : Z) (programs : list (list Workload.method))
    (sched : list nat) :
  d = 1 \/ d = -1 ->
  Int32.in_range start ->
  Forall (one_way d) programs ->
  Workload.all_done (Workload.execute POCO_OS_OTHER start programs sched) = true ->
  omap (issued d)
    (concat (Workload.results (Workload.execute POCO_OS_OTHER start programs sched)))
  ≡ₚ numbered d start (moves d (concat programs)).
Proof.
  intros Hd Hs Hnd Hdone. unfold Workload.execute in *. simpl in *.
  pose proof (generic_numbering_invariant d start programs sched Hd Hs Hnd)
    as [Hn Hp].
  destruct (Workload.pool_run _ sched _) as [c ts]; simpl in *.
  destruct (generic_finished_inv ts Hdone) as (E1 & _ & _).
  rewrite E1, Z.sub_0_r, (net_moves d _ Hd (one_way_concat _ _ Hnd)) in Hn.
  assert (El : length (concat (map (fun t => omap (issued d) (generic_resulted t)) ts))
               = moves d (concat programs))
    by (destruct Hd as [-> | ->]; lia).
  rewrite El in Hp. rewrite (generic_finished_issued d ts Hdone). exact Hp.
Qed.

Lemma execute_calls_numbered (os : POCO_OS) (d start : Z)
    (programs : list (list Workload.method)) (sched : list nat) :
  d = 1 \/ d = -1 ->
  Int32.in_range start ->
  Forall (one_way d) programs ->
  (os <> POCO_OS_OTHER -> Forall no_postfix programs) ->
  Workload.all_done (Workload.execute os start programs sched) = true ->
  omap (issued d) (concat (Workload.results (Workload.execute os start programs sched)))
  ≡ₚ numbered d start (moves d (concat programs)).
Proof.
  intros Hd Hs Hnd Hnp Hdone. destruct os.
  - apply (native_calls_numbered _ _ (fun x => eq_refl) (fun x => eq_refl));
      auto; apply Hnp; discriminate.
  - apply (native_calls_numbered _ _ (fun x => eq_refl) (fun x => eq_refl));
      auto; apply Hnp; discriminate.
  - apply generic_calls_numbered; auto.
Qed.

(** X4: calls that move the counter one way get a value each.  When the threads
    only increment (d = 1) or only decrement (d = -1), besides reading, and
    all their calls have returned, the values the counter took at those
    calls (the result of a prefix operator, the result of a postfix operator
    moved by d) are, in some order, the N values that follow the start value
    in steps of d, N being the number of such calls; so no two of them are
    equal unless there were more than 2^32.  Under the generic strategy this
    holds for prefix and postfix operators alike; under the native strategies
    for programs without postfix operators. *)
Theorem calls_numbered (os : POCO_OS) (d start : Z)
    (programs : list (list Workload.method)) (sched : list nat) :
  d = 1 \/ d = -1 ->
  Int32.in_range start ->
  Forall (one_way d) programs ->
  (os <> POCO_OS_OTHER -> Forall no_postfix programs) ->
  Workload.all_done (Workload.execute os start programs sched) = true ->
  omap (issued d) (concat (Workload.results (Workload.execute os start programs sched)))
  ≡ₚ numbered d start (moves d (concat programs))
  /\ (Z.of_nat (moves d (concat programs)) <= Int32.modulus ->
      NoDup (omap (issued d)
               (concat (Workload.results
                          (Workload.execute os start programs sched))))).
Proof.
  intros Hd Hs Hnd Hnp Hdone.
  pose proof (execute_calls_numbered os d start programs sched Hd Hs Hnd Hnp Hdone)
    as H.
  split; [ exact H | ].
  intros Hsmall. rewrite H. apply numbered_NoDup; assumption.
Qed.

Lemma calls_numbered_witness :
  omap (issued 1)
    (concat (Workload.results
       (Workload.execute POCO_OS_OTHER 5
          [[Workload.call_inc_postfix]; [Workload.call_inc_postfix; Workload.call_value];
           [Workload.call_inc_prefix]]
          [0; 1; 2; 2; 1; 0; 0; 1; 2; 2; 1; 0; 0; 1; 2; 2; 1; 0; 0; 1; 2; 2; 1; 0;
           0; 1; 2; 2; 1; 0; 0; 1; 2; 2; 1; 0; 0; 1; 2; 2; 1; 0; 0; 1; 2; 2; 1; 0]%nat)))
  ≡ₚ [6; 7; 8].
Proof.
  assert (Hs : Int32.in_range 5) by (split; vm_compute; discriminate).
  refine (proj1 (calls_numbered POCO_OS_OTHER 1 5 _ _ (or_introl eq_refl) Hs _ _ _)).
  - repeat (apply Forall_cons; split); try apply Forall_nil; simpl; auto.
  - congruence.
  - reflexivity.
Defined.

(** X5: the last release sees zero, and only the last.  When the threads only
    decrement with [--c], besides reading, on a counter that starts at the
    number N of those decrements (N at least 1 and an [int]), then under
    every strategy and every interleaving exactly one [--c] returns 0. *)
Theorem last_release_sees_zero (os : POCO_OS)
    (programs : list (list Workload.method)) (sched : list nat) :
  Forall (one_way (-1)) programs ->
  Forall no_postfix programs ->
  (1 <= moves (-1) (concat programs))%nat ->
  Z.of_nat (moves (-1) (concat programs)) <= Int32.max_signed ->
  Workload.all_done
    (Workload.execute os (Z.of_nat (moves (-1) (concat programs))) programs sched)
  = true ->
  length
    (filter (fun z => z = 0)
       (omap (issued (-1))
          (concat (Workload.results
             (Workload.execute os (Z.of_nat (moves (-1) (concat programs)))
                programs sched)))))
  = 1%nat.
Proof.
  intros Hnd Hnp H1 Hmax Hdone.
  assert (Hs : Int32.in_range (Z.of_nat (moves (-1) (concat programs))))
    by (int32_unfold; lia).
  pose proof (execute_calls_numbered os (-1) _ programs sched (or_intror eq_refl)
                Hs Hnd (fun _ => Hnp) Hdone) as Hp.
  rewrite Hp, one_zero_counting_down by (auto; lia).
  rewrite Nat.eqb_refl.
  destruct (Nat.eqb_spec (moves (-1) (concat programs)) 0); [ lia | reflexivity ].
Qed.

Lemma last_release_sees_zero_witness :
  length
    (filter (fun z => z = 0)
       (omap (issued (-1))
          (concat (Workload.results
             (Workload.execute POCO_OS_WINDOWS_NT 3
                [[Workload.call_dec_prefix]; [Workload.call_value; Workload.call_dec_prefix];
                 [Workload.call_dec_prefix]]
                [2; 1; 0; 1; 1; 2; 0; 1]%nat)))))
  = 1%nat.
Proof.
  refine (last_release_sees_zero POCO_OS_WINDOWS_NT
            [[Workload.call_dec_prefix]; [Workload.call_value; Workload.call_dec_prefix];
             [Workload.call_dec_prefix]]
            [2; 1; 0; 1; 1; 2; 0; 1]%nat _ _ _ _ _).
  - repeat (apply Forall_cons; split); try apply Forall_nil; simpl; auto.
  - repeat (apply Forall_cons; split); try apply Forall_nil; split; discriminate.
  - vm_compute. lia.
  - vm_compute. discriminate.
  - reflexivity.
Defined.


(** X6: under the generic strategy, in every state an interleaving can reach:
    at most one thread is inside a ScopedLock, the mutex is held exactly
    when one is, and a thread between the read and the write of its [++] or
    [--] has read the value the counter still holds. *)
Theorem generic_mutual_exclusion (start : Z)
    (programs : list (list Workload.method)) (sched : list nat) :
  Int32.in_range start ->
  sum_list_with generic_inside
    (snd (Workload.pool_run Workload.generic_step sched
            (Generic.mkImpl false start, Workload.spawn Workload.GIdle programs)))
  = (if Generic._counter_mutex
          (fst (Workload.pool_run Workload.generic_step sched
                  (Generic.mkImpl false start, Workload.spawn Workload.GIdle programs)))
     then 1 else 0)%nat
  /\ Forall (fun t => forall m old,
               Workload.at_pc t = Workload.GLoaded m old ->
               old = Generic._counter_value
                       (fst (Workload.pool_run Workload.generic_step sched
                               (Generic.mkImpl false start,
                                Workload.spawn Workload.GIdle programs))))
       (snd (Workload.pool_run Workload.generic_step sched
               (Generic.mkImpl false start, Workload.spawn Workload.GIdle programs))).
Proof.
  intros Hs.
  destruct (generic_programs_invariant start programs sched Hs) as (_ & _ & Hm & Hl).
  split; assumption.
Qed.

Lemma generic_mutual_exclusion_witness :
  sum_list_with generic_inside
    (snd (Workload.pool_run Workload.generic_step [0; 1; 0; 1]%nat
            (Generic.mkImpl false 3,
             Workload.spawn Workload.GIdle
               [[Workload.call_inc_prefix]; [Workload.call_dec_postfix]])))
  = 1%nat.
Proof.
  assert (Hs : Int32.in_range 3) by (split; vm_compute; discriminate).
  exact (proj1 (generic_mutual_exclusion 3
                  [[Workload.call_inc_prefix]; [Workload.call_dec_postfix]]
                  [0; 1; 0; 1]%nat Hs)).
Defined.

(** ** Programs of a single caller *)

Section SequentialPrograms.

Import Workload.

Lemma invoke_returns_result (os : POCO_OS) (m : method) (c : AtomicCounter.ImplType os) :
  AtomicCounter.quiescent os c ->
  exists c',
    invoke os m c = Returned (result_at m (AtomicCounter.stored os c), c')
    /\ AtomicCounter.stored os c'
       = Int32.wrap (AtomicCounter.stored os c + delta m)
    /\ AtomicCounter.quiescent os c'.
Proof.
  intros [Hr Hu]. unfold invoke.
  destruct m; simpl.
  - rewrite operator_ValueType_returns by exact Hu. simpl.
    exists c. rewrite Z.add_0_r, wrap_id by exact Hr.
    split; [ reflexivity | split; [ reflexivity | split; [ exact Hr | exact Hu ] ] ].
  - rewrite value_returns by exact Hu. simpl.
    exists c. rewrite Z.add_0_r, wrap_id by exact Hr.
    split; [ reflexivity | split; [ reflexivity | split; [ exact Hr | exact Hu ] ] ].
  - destruct (operator_inc_prefix_returns os c Hu) as (c' & E & Hv & Hu').
    rewrite E. simpl. exists c'. rewrite Hv.
    split; [ reflexivity | split; [ reflexivity | ] ].
    split; [ rewrite Hv; apply add_in_range | exact Hu' ].
  - destruct (operator_inc_postfix_returns os c Hu) as (c' & E & Hv & Hu').
    rewrite E. simpl. exists c'. rewrite Hv.
    split; [ reflexivity | split; [ reflexivity | ] ].
    split; [ rewrite Hv; apply add_in_range | exact Hu' ].
  - destruct (operator_dec_prefix_returns os c Hu) as (c' & E & Hv & Hu').
    rewrite E. simpl. exists c'. rewrite Hv.
    split; [ reflexivity | split; [ reflexivity | ] ].
    split; [ rewrite Hv; apply sub_in_range | exact Hu' ].
  - destruct (operator_dec_postfix_returns os c Hu) as (c' & E & Hv & Hu').
    rewrite E. simpl. exists c'. rewrite Hv.
    split; [ reflexivity | split; [ reflexivity | ] ].
    split; [ rewrite Hv; apply sub_in_range | exact Hu' ].
  - rewrite operator_not_returns by exact Hu. simpl.
    exists c. rewrite Z.add_0_r, wrap_id by exact Hr.
    split; [ reflexivity | split; [ reflexivity | split; [ exact Hr | exact Hu ] ] ].
Qed.

Lemma invoke_all_returns (os : POCO_OS) (program : list method) :
  forall c : AtomicCounter.ImplType os,
    AtomicCounter.quiescent os c ->
    exists c',
      invoke_all os program c
      = Returned (results_from program (AtomicCounter.stored os c), c')
      /\ AtomicCounter.stored os c'
         = Int32.wrap (AtomicCounter.stored os c + net program)
      /\ AtomicCounter.quiescent os c'.
Proof.
  induction program as [|m rest IH]; intros c Hq.
  - exists c. simpl. rewrite Z.add_0_r, wrap_id by apply Hq. auto.
  - destruct (invoke_returns_result os m c Hq) as (c1 & E1 & Hv1 & Hq1).
    destruct (IH c1 Hq1) as (c2 & E2 & Hv2 & Hq2).
    exists c2. cbn [invoke_all results_from]. rewrite E1. simpl. rewrite E2. simpl.
    rewrite Hv1. split; [ reflexivity | ]. split; [ | exact Hq2 ].
    rewrite Hv2, Hv1, wrap_add_l. change (net (m :: rest)) with (delta m + net rest).
    f_equal. lia.
Qed.

Lemma results_from_length (program : list method) (v : Z) :
  length (results_from program v) = length program.
Proof. revert v. induction program; intros v; simpl; auto. Qed.

End SequentialPrograms.

(** X7: a program whose increments and decrements balance leaves the counter
    exactly as it found it, also when it takes the counter across the
    largest or the smallest [int] on the way: for every counter between
    calls, the program returns one result per call, the counter ends at its
    value plus increments minus decrements (as a 32-bit [int]), and if these
    balance (modulo 2^32) the counter, lock included, is the one before. *)
Theorem balanced_program_restores (os : POCO_OS) (program : list Workload.method)
    (c : AtomicCounter.ImplType os) :
  AtomicCounter.quiescent os c ->
  exists rs c',
    Workload.invoke_all os program c = Returned (rs, c')
    /\ length rs = length program
    /\ AtomicCounter.stored os c'
       = Int32.wrap (AtomicCounter.stored os c + Workload.net program)
    /\ AtomicCounter.quiescent os c'
    /\ (Workload.net program mod Int32.modulus = 0 -> c' = c).
Proof.
  intros Hq. destruct (invoke_all_returns os program c Hq) as (c' & E & Hv & Hq').
  exists (results_from program (AtomicCounter.stored os c)), c'.
  split; [ exact E | ]. split; [ apply results_from_length | ].
  split; [ exact Hv | ]. split; [ exact Hq' | ].
  intros Hbal. apply quiescent_ext; [ apply Hq' | apply Hq | ].
  rewrite Hv. destruct Hq as [Hr _].
  rewrite <- (wrap_id _ Hr) at 2. unfold Int32.wrap, Int32.unsigned. f_equal.
  rewrite Z.add_mod, Hbal, Z.add_0_r, Z.mod_mod by discriminate. reflexivity.
Qed.

Lemma balanced_program_restores_witness :
  exists rs,
    Workload.invoke_all POCO_OS_OTHER
      [Workload.call_inc_postfix; Workload.call_inc_prefix;
       Workload.call_dec_prefix; Workload.call_dec_postfix]
      (Generic.mkImpl false 2147483646)
    = Returned (rs, Generic.mkImpl false 2147483646).
Proof.
  assert (Hq : AtomicCounter.quiescent POCO_OS_OTHER (Generic.mkImpl false 2147483646)).
  { split; [ split; vm_compute; discriminate | reflexivity ]. }
  assert (Hb : Workload.net
                 [Workload.call_inc_postfix; Workload.call_inc_prefix;
                  Workload.call_dec_prefix; Workload.call_dec_postfix]
               mod Int32.modulus = 0) by (vm_compute; reflexivity).
  destruct (balanced_program_restores POCO_OS_OTHER
              [Workload.call_inc_postfix; Workload.call_inc_prefix;
               Workload.call_dec_prefix; Workload.call_dec_postfix]
              (Generic.mkImpl false 2147483646) Hq)
    as (rs & c' & E & _ & _ & _ & Hc).
  exists rs. destruct (Hc Hb). exact E.
Defined.

(** X8: the three strategies are interchangeable for a single caller: on
    counters that hold the same value, a program returns the same results
    under any two strategies and leaves counters that hold the same value. *)
Theorem strategies_agree (os1 os2 : POCO_OS) (program : list Workload.method)
    (c1 : AtomicCounter.ImplType os1) (c2 : AtomicCounter.ImplType os2) :
  AtomicCounter.quiescent os1 c1 ->
  AtomicCounter.quiescent os2 c2 ->
  AtomicCounter.stored os1 c1 = AtomicCounter.stored os2 c2 ->
  exists rs c1' c2',
    Workload.invoke_all os1 program c1 = Returned (rs, c1')
    /\ Workload.invoke_all os2 program c2 = Returned (rs, c2')
    /\ AtomicCounter.stored os1 c1' = AtomicCounter.stored os2 c2'
    /\ AtomicCounter.quiescent os1 c1'
    /\ AtomicCounter.quiescent os2 c2'.
Proof.
  intros Hq1 Hq2 Hv.
  destruct (invoke_all_returns os1 program c1 Hq1) as (c1' & E1 & Hv1 & Hq1').
  destruct (invoke_all_returns os2 program c2 Hq2) as (c2' & E2 & Hv2 & Hq2').
  exists (results_from program (AtomicCounter.stored os1 c1)), c1', c2'.
  split; [ exact E1 | ]. split; [ rewrite Hv; exact E2 | ].
  split; [ rewrite Hv1, Hv2, Hv; reflexivity | auto ].
Qed.

Lemma strategies_agree_witness :
  exists rs c1' c2',
    Workload.invoke_all POCO_OS_WINDOWS_NT
      [Workload.call_dec_postfix; Workload.call_operator_not] 1 = Returned (rs, c1')
    /\ Workload.invoke_all POCO_OS_OTHER
         [Workload.call_dec_postfix; Workload.call_operator_not]
         (Generic.mkImpl false 1) = Returned (rs, c2').
Proof.
  assert (Hq1 : AtomicCounter.quiescent POCO_OS_WINDOWS_NT 1).
  { split; [ split; vm_compute; discriminate | exact I ]. }
  assert (Hq2 : AtomicCounter.quiescent POCO_OS_OTHER (Generic.mkImpl false 1)).
  { split; [ split; vm_compute; discriminate | reflexivity ]. }
  destruct (strategies_agree POCO_OS_WINDOWS_NT POCO_OS_OTHER
              [Workload.call_dec_postfix; Workload.call_operator_not]
              1 (Generic.mkImpl false 1) Hq1 Hq2 eq_refl)
    as (rs & c1' & c2' & E1 & E2 & _).
  exists rs, c1', c2'. split; assumption.
Defined.


(** A thread that runs one call alone goes through the steps of the member
    function: it ends with the result and the counter the function returns. *)
Lemma workload_lone_call (os : POCO_OS) (m : Workload.method) (v : Z) :
  exists r c',
    Workload.invoke os m (AtomicCounter.construct_init os v) = Returned (r, c')
    /\ Workload.results (Workload.execute os v [[m]] [0; 0; 0; 0; 0]%nat) = [[(m, r)]]
    /\ Workload.final_value (Workload.execute os v [[m]] [0; 0; 0; 0; 0]%nat)
       = AtomicCounter.stored os c'.
Proof. destruct os; destruct m; do 2 eexists; repeat split. Qed.
